(** * midi2json: a shallow embedding of [midi2json.js]

    The script reads a Standard MIDI File into a byte buffer, walks the
    header chunk and every track chunk with a forward-only cursor, collects
    the decoded events per track name and finally scales every tick time to
    milliseconds.

    The embedding follows the script function by function.  The module
    globals of the script (lines 5-18) are the fields of [Globals]; every
    function of the script is a computation in the state monad [M] over
    that record. *)

From Stdlib Require Import ZArith List String Ascii Lia Floats Strings.Byte DecimalString Sorted.
From stdpp Require Import gmap strings.
Import ListNotations.

#[local] Open Scope Z_scope.

(** ** JavaScript numbers as the parser uses them *)

(** A number produced by [parseInt]: [NaN] (no digits) or an integer.  The
    integers the parser computes with (bytes, lengths, counts, the cursor)
    are far below [2^53] and therefore exact as doubles; the accumulated
    tick time is exact as long as the delta times of a track sum to less
    than [2^53].  The value of a long meta payload can be larger: it is
    only tested for truthiness, which rounding does not change, and stored
    into [tempo], where [toFloat] rounds it to the nearest double as
    [parseInt] does. *)
Inductive num : Type :=
| NaN
| Int (z : Z).

(** [ToInt32] of ECMAScript on an integer: wrap around modulo [2^32] into
    the signed range. *)
Definition toInt32 (z : Z) : Z := (z + 2 ^ 31) mod 2 ^ 32 - 2 ^ 31.

(** [ToInt32] on a number: [NaN] becomes [0]. *)
Definition numToInt32 (x : num) : Z :=
  match x with
  | NaN => 0
  | Int z => toInt32 z
  end.

(** The bit operators [&], [|] and [<<] convert both operands with
    [ToInt32] and return an int32. *)
Definition js_and (a b : num) : Z := toInt32 (Z.land (numToInt32 a) (numToInt32 b)).
Definition js_or (a b : num) : Z := toInt32 (Z.lor (numToInt32 a) (numToInt32 b)).
Definition js_shl (a : num) (k : Z) : Z := toInt32 (Z.shiftl (numToInt32 a) (k mod 32)).

(** [x == c] and [x < c] against a numeric literal: false on [NaN]. *)
Definition num_eqb (x : num) (c : Z) : bool :=
  match x with
  | NaN => false
  | Int z => z =? c
  end.

Definition num_ltb (x : num) (c : Z) : bool :=
  match x with
  | NaN => false
  | Int z => z <? c
  end.

(** [c < x], as in [trackLength > 0]. *)
Definition num_gtb (x : num) (c : Z) : bool :=
  match x with
  | NaN => false
  | Int z => c <? z
  end.

(** Truthiness of a number: [0] and [NaN] are falsy. *)
Definition truthy (x : num) : bool :=
  match x with
  | NaN => false
  | Int z => negb (z =? 0)
  end.

(** An integer as a double, rounded to nearest-even. *)
Definition Z2float (z : Z) : float := SF2Prim (binary_normalize prec emax z 0 false).

Definition toFloat (x : num) : float :=
  match x with
  | NaN => nan
  | Int z => Z2float z
  end.

(** ** Events *)

(** The event objects pushed onto a track's array; the data fields hold
    whatever [bufferToNumber] returned, so they can be [NaN] on a truncated
    file. *)
Inductive EventBody : Type :=
| noteOff (note velocity : num)
| noteOn (note velocity : num)
| polyAftertouch (note pressure : num)
| CC (cc value : num)
| programChange (program : num)
| aftertouch (pressure : num)
| pitchwheel (value : Z)
| trackEnd.

(** ["time"] is the accumulated tick time, ["timeMS"] is absent until the
    final annotation loop adds it. *)
Record Event : Type := mkEvent {
  body : EventBody;
  time : Z;
  timeMS : option float;
}.

(** ** The module globals *)

Record Globals : Type := mkGlobals {
  tempTrackName : string;
  tempo : float;
  overrideTempoBPM : float;
  overrideTempo : float;
  division : num;
  outputDict : gmap string (list Event);
  runningStatus : option num;      (* [None] is [null] *)
  bytes : list byte;
  byteIndex : Z;
}.

Definition set_tempTrackName (v : string) (g : Globals) : Globals :=
  mkGlobals v (tempo g) (overrideTempoBPM g) (overrideTempo g) (division g)
            (outputDict g) (runningStatus g) (bytes g) (byteIndex g).

Definition set_tempo (v : float) (g : Globals) : Globals :=
  mkGlobals (tempTrackName g) v (overrideTempoBPM g) (overrideTempo g) (division g)
            (outputDict g) (runningStatus g) (bytes g) (byteIndex g).

Definition set_division (v : num) (g : Globals) : Globals :=
  mkGlobals (tempTrackName g) (tempo g) (overrideTempoBPM g) (overrideTempo g) v
            (outputDict g) (runningStatus g) (bytes g) (byteIndex g).

Definition set_outputDict (v : gmap string (list Event)) (g : Globals) : Globals :=
  mkGlobals (tempTrackName g) (tempo g) (overrideTempoBPM g) (overrideTempo g) (division g)
            v (runningStatus g) (bytes g) (byteIndex g).

Definition set_runningStatus (v : option num) (g : Globals) : Globals :=
  mkGlobals (tempTrackName g) (tempo g) (overrideTempoBPM g) (overrideTempo g) (division g)
            (outputDict g) v (bytes g) (byteIndex g).

Definition set_byteIndex (v : Z) (g : Globals) : Globals :=
  mkGlobals (tempTrackName g) (tempo g) (overrideTempoBPM g) (overrideTempo g) (division g)
            (outputDict g) (runningStatus g) (bytes g) v.

(** ** The state monad of the script *)

Definition M (A : Type) : Type := Globals -> A * Globals.

Definition ret {A : Type} (a : A) : M A := fun g => (a, g).

Definition bind {A B : Type} (m : M A) (k : A -> M B) : M B :=
  fun g => let (a, g') := m g in k a g'.

Definition get : M Globals := fun g => (g, g).

Definition modify (f : Globals -> Globals) : M unit := fun g => (tt, f g).

Notation "'let*' x ':=' m 'in' k" := (bind m (fun x => k))
  (at level 10, x name, m at level 100, k at level 200).
Notation "'let*' ' p ':=' m 'in' k" := (bind m (fun x => let p := x in k))
  (at level 10, p pattern, m at level 100, k at level 200).
Notation "'do' m 'in' k" := (bind m (fun _ => k))
  (at level 10, m at level 100, k at level 200).

(** ** Bytes and buffers *)

Definition byteVal (b : byte) : Z := Z.of_N (Byte.to_N b).

(** An index argument of [Buffer.prototype.slice]: a negative index counts
    from the end, and everything is clamped to the buffer. *)
Definition clampIndex (len i : Z) : Z :=
  if i <? 0 then Z.max 0 (len + i) else Z.min i len.

Definition slice (buf : list byte) (from to : Z) : list byte :=
  let len := Z.of_nat (length buf) in
  let s := clampIndex len from in
  let e := clampIndex len to in
  firstn (Z.to_nat (e - s)) (skipn (Z.to_nat s) buf).

(** [bufferToNumber]: the buffer printed as hexadecimal digits and read
    back with [parseInt(_, 16)]; the empty string gives [NaN], otherwise
    the big-endian value of the bytes.  [parseInt] returns a double: up to
    six bytes the value is below [2^53] and the double is that integer.
    Only the payload of a meta event can be longer, and the script only
    tests it for zero or stores it as the tempo; the integer is kept
    exact here and rounded where it becomes a float, in [toFloat]. *)
Definition bigEndian (buf : list byte) : Z :=
  fold_left (fun acc b => acc * 256 + byteVal b) buf 0.

Definition bufferToNumber (buf : list byte) : num :=
  match buf with
  | [] => NaN
  | _ => Int (bigEndian buf)
  end.

(** [readBytes]: slice, then advance the cursor unconditionally. *)
Definition readBytes (numBytes : Z) : M (list byte) :=
  fun g =>
    let buf := slice (bytes g) (byteIndex g) (byteIndex g + numBytes) in
    (buf, set_byteIndex (byteIndex g + numBytes) g).

(** ** Variable-length quantities *)

(** The [while] loop of [readVariableLength].  Its guard bounds the number
    of iterations by three, which is the fuel it is run with. *)
Fixpoint vlLoop (fuel : nat) (retVal : Z) (byte : num) (byteCount : Z)
  : M (Z * num * Z) :=
  match fuel with
  | O => ret (retVal, byte, byteCount)
  | S fuel' =>
      if negb (js_and byte (Int 0x80) =? 0) && (byteCount <? 3) then
        let retVal := js_shl (Int retVal) 7 in
        let retVal := js_or (Int retVal) (Int (js_and byte (Int 0x7F))) in
        let* inbuf := readBytes 1 in
        vlLoop fuel' retVal (bufferToNumber inbuf) (byteCount + 1)
      else ret (retVal, byte, byteCount)
  end.

Definition readVariableLength : M (Z * Z) :=
  let* buf := readBytes 1 in
  let* '(retVal, byte, byteCount) := vlLoop 3 0 (bufferToNumber buf) 0 in
  let retVal := js_shl (Int retVal) 7 in
  let retVal := js_or (Int retVal) (Int (js_and byte (Int 0x7F))) in
  ret (retVal, byteCount + 1).

(** ** Channel-voice events *)

(** [trackData.push(noteData)] *)
Definition push (trackData : list Event) (b : EventBody) (totalDeltaTime : Z)
  : list Event :=
  trackData ++ [mkEvent b totalDeltaTime None].

(** Truthiness of [runningStatus]: [null], [0] and [NaN] are falsy. *)
Definition statusSet (rs : option num) : bool :=
  match rs with
  | None => false
  | Some x => truthy x
  end.

(** [readEvent] returns [bytesRead]; the array it pushes onto is returned
    beside it. *)
Definition readEvent (trackData : list Event) (totalDeltaTime : Z) (headerByte : num)
  : M (list Event * Z) :=
  let* g := get in
  (* the running-status test of lines 123-134 *)
  let resolved : option (num * option num) :=
    if num_ltb headerByte 0x80 then
      if statusSet (runningStatus g) then
        match runningStatus g with
        | Some rs => Some (rs, Some headerByte)
        | None => None
        end
      else None
    else Some (headerByte, None) in
  match resolved with
  | None => ret (trackData, 0)
  | Some (status, firstDataByte) =>
      let headerMasked := js_and status (Int 0xF0) in
      let* '(firstDataByte, bytesRead) :=
        match firstDataByte with
        | None => let* b := readBytes 1 in ret (bufferToNumber b, 1)
        | Some d => ret (d, 0)
        end in
      let* '(trackData, bytesRead) :=
        if headerMasked =? 0x80 then
          let* b := readBytes 1 in
          ret (push trackData (noteOff firstDataByte (bufferToNumber b)) totalDeltaTime,
               bytesRead + 1)
        else if headerMasked =? 0x90 then
          let* b := readBytes 1 in
          ret (push trackData (noteOn firstDataByte (bufferToNumber b)) totalDeltaTime,
               bytesRead + 1)
        else if headerMasked =? 0xA0 then
          let* b := readBytes 1 in
          ret (push trackData (polyAftertouch firstDataByte (bufferToNumber b)) totalDeltaTime,
               bytesRead + 1)
        else if headerMasked =? 0xB0 then
          let* b := readBytes 1 in
          ret (push trackData (CC firstDataByte (bufferToNumber b)) totalDeltaTime,
               bytesRead + 1)
        else if headerMasked =? 0xC0 then
          ret (push trackData (programChange firstDataByte) totalDeltaTime, bytesRead)
        else if headerMasked =? 0xD0 then
          ret (push trackData (aftertouch firstDataByte) totalDeltaTime, bytesRead)
        else if headerMasked =? 0xE0 then
          let* b := readBytes 1 in
          let msb := bufferToNumber b in
          let pitchwheelValue := js_or (Int (js_shl msb 7)) firstDataByte in
          ret (push trackData (pitchwheel pitchwheelValue) totalDeltaTime, bytesRead + 1)
        else ret (trackData, bytesRead) in
      do modify (set_runningStatus (Some status)) in
      ret (trackData, bytesRead)
  end.

(** ** Meta events *)

(** [metaData.toString("ascii")]: one character per byte, the high bit
    cleared. *)
Definition asciiString (buf : list byte) : string :=
  string_of_list_ascii
    (map (fun b => ascii_of_N (N.land (Byte.to_N b) 127)) buf).

Definition readMetaEvent (trackData : list Event) (totalDeltaTime : Z)
  : M (list Event * Z) :=
  (* meta events clear running status *)
  do modify (set_runningStatus None) in
  let* h := readBytes 1 in
  let metaHeader := bufferToNumber h in
  let bytesRead := 1 in
  let* '(metaLength, lengthBytes) := readVariableLength in
  let bytesRead := bytesRead + lengthBytes in
  if 0 <? metaLength then
    let* metaData := readBytes metaLength in
    let metaValue := bufferToNumber metaData in
    let bytesRead := bytesRead + metaLength in
    do (if num_eqb metaHeader 0x03 then
          if truthy metaValue then modify (set_tempTrackName (asciiString metaData))
          else ret tt
        else if num_eqb metaHeader 0x51 then modify (set_tempo (toFloat metaValue))
        else ret tt) in
    ret (trackData, bytesRead)
  else
    if num_eqb metaHeader 0x2F then
      ret (push trackData trackEnd totalDeltaTime, bytesRead)
    else ret (trackData, bytesRead).

(** ** System exclusive and system common *)

Definition readSysex (trackData : list Event) (totalDeltaTime : Z) (headerByte : num)
  : M (list Event * Z) :=
  do (if num_ltb headerByte 0xF8 then modify (set_runningStatus None) else ret tt) in
  let* '(len, lengthBytes) := readVariableLength in
  let* _ := readBytes len in
  ret (trackData, len + lengthBytes).

(** ** Tracks *)

Definition headerChunk : string := "MThd".
Definition trackChunk : string := "MTrk".

(** [buffer == string]: the buffer is converted with [toString()] and the
    two strings are compared.  For the ASCII literals of the script this
    holds exactly when the bytes are the characters of the literal. *)
Definition bufferEqString (buf : list byte) (s : string) : bool :=
  bool_decide (map byteVal buf = map byteVal (list_byte_of_string s)).

(** A non-negative integer printed by string concatenation. *)
Definition numberToString (n : Z) : string :=
  NilZero.string_of_uint (N.to_uint (Z.to_N n)).

(** [outputDict[name] = trackData] on a plain object creates or overwrites
    an own property, for every key but ["__proto__"]: that assignment
    reaches the setter inherited from [Object.prototype], which swaps the
    prototype of [outputDict] and leaves its own properties as they are.
    The array that became the prototype only contributes inherited index
    keys, whose values have no [length], so neither the annotation loop
    nor [JSON.stringify] sees it. *)
Definition assignProperty (name : string) (v : list Event)
    (d : gmap string (list Event)) : gmap string (list Event) :=
  if String.eqb name "__proto__" then d else <[name := v]> d.

(** One pass through the body of the [while] loop of [readTrack]; returns
    the new [totalDeltaTime], the array and [bytesRead]. *)
Definition trackIteration (totalDeltaTime : Z) (trackData : list Event)
  : M (Z * list Event * Z) :=
  let bytesRead := 0 in
  let* deltaTime := readVariableLength in
  let totalDeltaTime := totalDeltaTime + fst deltaTime in
  let bytesRead := bytesRead + snd deltaTime in
  let* header := readBytes 1 in
  let headerByte := bufferToNumber header in
  let bytesRead := bytesRead + 1 in
  let* '(trackData, n) :=
    if num_eqb headerByte 0xFF then readMetaEvent trackData totalDeltaTime
    else if js_and headerByte (Int 0xF0) =? 0xF0 then
      readSysex trackData totalDeltaTime headerByte
    else readEvent trackData totalDeltaTime headerByte in
  ret (totalDeltaTime, trackData, bytesRead + n).

(** The [while (trackLength > 0)] loop.  [None] means that the fuel ran
    out before the guard failed; [trackLoop_spec] shows that the fuel
    [readTrack] passes is always enough. *)
Fixpoint trackLoop (fuel : nat) (trackLength : Z) (totalDeltaTime : Z)
    (trackData : list Event) : M (option (list Event)) :=
  if 0 <? trackLength then
    match fuel with
    | O => ret None
    | S fuel' =>
        let* '(totalDeltaTime, trackData, bytesRead) :=
          trackIteration totalDeltaTime trackData in
        trackLoop fuel' (trackLength - bytesRead) totalDeltaTime trackData
    end
  else ret (Some trackData).

(** What lines 76-113 of [readTrack] leave behind. *)
Inductive TrackResult : Type :=
| NoTrackHeader                          (* "No track header!", early return *)
| Parsed (trackData : list Event)        (* the loop ended; the name is in [tempTrackName] *)
| LoopOutOfFuel.

(** Lines 83-113: the body of [readTrack] once the chunk length is read. *)
Definition trackBody (iTrack : Z) (trackLength : num) : M TrackResult :=
  do modify (set_tempTrackName "") in
  let trackNameDefault := ("Track " ++ numberToString iTrack)%string in
  let* r :=
    match trackLength with
    | NaN => ret (Some [])
    | Int len => trackLoop (Z.to_nat len) len 0 []
    end in
  match r with
  | None => ret LoopOutOfFuel
  | Some trackData =>
      do modify (fun g =>
                   if String.eqb (tempTrackName g) "" then
                     set_tempTrackName trackNameDefault g
                   else g) in
      ret (Parsed trackData)
  end.

(** Lines 76-113. *)
Definition readTrackData (iTrack : Z) : M TrackResult :=
  let* track := readBytes 4 in
  if negb (bufferEqString track trackChunk) then ret NoTrackHeader
  else
    let* lenBuf := readBytes 4 in
    trackBody iTrack (bufferToNumber lenBuf).

(** [readTrack]: lines 76-113 followed by the store of line 114.
    [Some tt] when it returns, [None] when the loop ran out of fuel. *)
Definition readTrack (iTrack : Z) : M (option unit) :=
  let* r := readTrackData iTrack in
  match r with
  | NoTrackHeader => ret (Some tt)
  | LoopOutOfFuel => ret None
  | Parsed trackData =>
      do modify (fun g =>
                   set_outputDict
                     (assignProperty (tempTrackName g) trackData (outputDict g)) g) in
      ret (Some tt)
  end.

(** ** The script body *)

Definition set_overrideTempoBPM (v : float) (g : Globals) : Globals :=
  mkGlobals (tempTrackName g) (tempo g) v (overrideTempo g) (division g)
            (outputDict g) (runningStatus g) (bytes g) (byteIndex g).

Definition set_overrideTempo (v : float) (g : Globals) : Globals :=
  mkGlobals (tempTrackName g) (tempo g) (overrideTempoBPM g) v (division g)
            (outputDict g) (runningStatus g) (bytes g) (byteIndex g).

Definition set_bytes (v : list byte) (g : Globals) : Globals :=
  mkGlobals (tempTrackName g) (tempo g) (overrideTempoBPM g) (overrideTempo g) (division g)
            (outputDict g) (runningStatus g) v (byteIndex g).

(** The initialisers of lines 5-18; [var bytes;] has none. *)
Definition initGlobals (g : Globals) : Globals :=
  mkGlobals "" 500000%float 0%float 0%float (Int 0) ∅ None (bytes g) 0.

(** How a run ends. *)
Inductive Outcome : Type :=
| Done (out : gmap string (list Event))   (* the object handed to [JSON.stringify] *)
| Exit1                                   (* [process.exit(1)] *)
| TypeError                               (* [bufferToNumber(undefined)] throws *)
| OutOfFuel.                              (* a track loop ran out of fuel *)

(** Lines 280-286: the optional tempo argument and the file.  [file] is
    what [fs.readFileSync(process.argv[2])] returned and [bpm] is
    [parseFloat(process.argv[4])] when a fifth argument was given. *)
Definition readArguments (file : list byte) (bpm : option float) : M unit :=
  do match bpm with
     | Some b =>
         do modify (set_overrideTempoBPM b) in
         modify (set_overrideTempo (60000000 / b)%float)
     | None => ret tt
     end in
  modify (set_bytes file).

(** The [for] loop filling [headerVals]. *)
Fixpoint readHeaderVals (n : nat) : M (list (list byte)) :=
  match n with
  | O => ret []
  | S n' =>
      let* headerVal := readBytes 2 in
      let* rest := readHeaderVals n' in
      ret (headerVal :: rest)
  end.

(** The number of [i >= 0] with [i < headerLength / 2]. *)
Definition headerValCount (headerLength : num) : nat :=
  match headerLength with
  | NaN => O
  | Int hl => Z.to_nat ((hl + 1) / 2)
  end.

(** Lines 288-320: the header chunk.  Ends the run ([inl]) or yields
    [numTracks] ([inr]); a [Buffer] is always truthy, so the [!header]
    branch is dead. *)
Definition parseHeader : M (Outcome + num) :=
  let* header := readBytes 4 in
  if negb (bufferEqString header headerChunk) then ret (inl Exit1)
  else
    let* lenBuf := readBytes 4 in
    let headerLength := bufferToNumber lenBuf in
    let* headerVals := readHeaderVals (headerValCount headerLength) in
    match headerVals with
    | format :: numTracksBuf :: divisionBuf :: _ =>
        let numTracks := bufferToNumber numTracksBuf in
        do modify (set_division (bufferToNumber divisionBuf)) in
        let* g := get in
        if negb (js_and (division g) (Int 0x8000) =? 0) then ret (inl Exit1)
        else ret (inr numTracks)
    | _ => ret (inl TypeError)
    end.

(** The [for] loop over the tracks, [remaining] iterations from [iTrack]. *)
Fixpoint readTracks (remaining : nat) (iTrack : Z) : M (option unit) :=
  match remaining with
  | O => ret (Some tt)
  | S remaining' =>
      let* r := readTrack iTrack in
      match r with
      | None => ret None
      | Some _ => readTracks remaining' (iTrack + 1)
      end
  end.

Definition trackCount (numTracks : num) : nat :=
  match numTracks with
  | NaN => O
  | Int n => Z.to_nat n
  end.

(** The annotation loop: every event of every own key gets ["timeMS"]. *)
Definition annotateEvent (msPerTick : float) (e : Event) : Event :=
  mkEvent (body e) (time e) (Some (Z2float (time e) * msPerTick)%float).

Definition annotate (msPerTick : float) (d : gmap string (list Event))
  : gmap string (list Event) :=
  map (annotateEvent msPerTick) <$> d.

(** Lines 329-332. *)
Definition effectiveTempo (g : Globals) : float :=
  if (0 <? overrideTempo g)%float then overrideTempo g else tempo g.

Definition msPerTickOf (tempo : float) (division : num) : float :=
  (tempo / toFloat division / 1000)%float.

(** Lines 329-348: tempo resolution and time annotation. *)
Definition finish : M Outcome :=
  do modify (fun g => set_tempo (effectiveTempo g) g) in
  let* g := get in
  let msPerTick := msPerTickOf (tempo g) (division g) in
  do modify (set_outputDict (annotate msPerTick (outputDict g))) in
  let* g := get in
  ret (Done (outputDict g)).

(** The script from line 5 to the end. *)
Definition script (file : list byte) (bpm : option float) : M Outcome :=
  do modify initGlobals in
  do readArguments file bpm in
  let* h := parseHeader in
  match h with
  | inl o => ret o
  | inr numTracks =>
      let* r := readTracks (trackCount numTracks) 0 in
      match r with
      | None => ret OutOfFuel
      | Some _ => finish
      end
  end.

(** Lines 288-348 alone: the decode of the buffer in [bytes], from the
    header chunk to the output.  [script] is the initialisers and the
    arguments followed by this decode. *)
Definition decode : M Outcome :=
  let* h := parseHeader in
  match h with
  | inl o => ret o
  | inr numTracks =>
      let* r := readTracks (trackCount numTracks) 0 in
      match r with
      | None => ret OutOfFuel
      | Some _ => finish
      end
  end.

(** ** Definitions used to state the properties *)

(** The byte with value [z], for [0 <= z < 256]. *)
Definition byteOfZ (z : Z) : byte :=
  match Byte.of_N (Z.to_N z) with
  | Some b => b
  | None => x00
  end.

(** The canonical variable-length encoder of the MIDI file format: the
    value in groups of seven bits, most significant group first, without
    leading zero groups, every byte but the last with its top bit set.
    The script has no encoder; this one is written from the format. *)
Fixpoint continuationBytes (n : nat) (q : Z) : list byte :=
  match n with
  | O => []
  | S n' =>
      if q =? 0 then []
      else continuationBytes n' (q / 128) ++ [byteOfZ (128 + q mod 128)]
  end.

Definition encodeVarLen (v : Z) : list byte :=
  continuationBytes 3 (v / 128) ++ [byteOfZ (v mod 128)].

(** The seven-bit groups behind [continuationBytes], and the value a list
    of groups stands for. *)
Fixpoint groupsOf (n : nat) (q : Z) : list Z :=
  match n with
  | O => []
  | S n' => if q =? 0 then [] else groupsOf n' (q / 128) ++ [q mod 128]
  end.

Definition appendGroups (acc : Z) (rs : list Z) : Z :=
  fold_left (fun a r => a * 128 + r) rs acc.

(** The bytes of the buffer from the cursor on. *)
Definition remainingBytes (g : Globals) : list byte :=
  skipn (Z.to_nat (byteIndex g)) (bytes g).

(** [nextBytes g l]: the cursor is inside the buffer and the next bytes
    are [l]. *)
Definition nextBytes (g : Globals) (l : list byte) : Prop :=
  0 <= byteIndex g /\ firstn (length l) (remainingBytes g) = l.

(** The fields that parsing never assigns. *)
Definition sameEnv (g g' : Globals) : Prop :=
  overrideTempoBPM g' = overrideTempoBPM g /\
  overrideTempo g' = overrideTempo g /\
  division g' = division g /\
  outputDict g' = outputDict g /\
  bytes g' = bytes g.

(** A state that holds nothing but a buffer and a cursor, and the
    variable-length quantity found at a position of a buffer. *)
Definition cursorAt (bs : list byte) (i : Z) : Globals :=
  mkGlobals "" 0%float 0%float 0%float NaN ∅ None bs i.

Definition decodeVarLen (bs : list byte) (i : Z) : Z * Z :=
  fst (readVariableLength (cursorAt bs i)).

(** The meta event that the loop iteration starting in [g] decodes, when
    it decodes one with a declared length above zero: its type byte and
    the payload it reads. *)
Definition metaAt (g : Globals) : option (num * list byte) :=
  let bs := bytes g in
  let i := byteIndex g in
  let c := snd (decodeVarLen bs i) in
  let header := slice bs (i + c) (i + c + 1) in
  if num_eqb (bufferToNumber header) 0xFF then
    let ty := slice bs (i + c + 1) (i + c + 1 + 1) in
    let len := fst (decodeVarLen bs (i + c + 1 + 1)) in
    let c2 := snd (decodeVarLen bs (i + c + 1 + 1)) in
    if 0 <? len then
      Some (bufferToNumber ty,
            slice bs (i + c + 1 + 1 + c2) (i + c + 1 + 1 + c2 + len))
    else None
  else None.

(** A tempo meta event (type [0x51]) and the value it carries. *)
Definition tempoWrite (g : Globals) : option float :=
  match metaAt g with
  | Some (ty, payload) =>
      if num_eqb ty 0x51 then Some (toFloat (bufferToNumber payload)) else None
  | None => None
  end.

(** A name meta event (type [0x03]) whose payload is not all zero. *)
Definition nameWrite (g : Globals) : option string :=
  match metaAt g with
  | Some (ty, payload) =>
      if num_eqb ty 0x03 && truthy (bufferToNumber payload)
      then Some (asciiString payload) else None
  | None => None
  end.

(** The states in which the body of the track loop is entered, in order. *)
Fixpoint loopStates (fuel : nat) (trackLength : Z) (totalDeltaTime : Z)
    (trackData : list Event) (g : Globals) : list Globals :=
  if 0 <? trackLength then
    match fuel with
    | O => []
    | S fuel' =>
        let '((totalDeltaTime', trackData', bytesRead), g') :=
          trackIteration totalDeltaTime trackData g in
        g :: loopStates fuel' (trackLength - bytesRead) totalDeltaTime' trackData' g'
    end
  else [].

(** The same for a whole call of [readTrack]. *)
Definition trackStates (g : Globals) : list Globals :=
  let '(track, g1) := readBytes 4 g in
  if negb (bufferEqString track trackChunk) then []
  else
    let '(lenBuf, g2) := readBytes 4 g1 in
    match bufferToNumber lenBuf with
    | NaN => []
    | Int len => loopStates (Z.to_nat len) len 0 [] (set_tempTrackName "" g2)
    end.

(** And for the loop over the tracks. *)
Fixpoint tracksStates (remaining : nat) (iTrack : Z) (g : Globals) : list Globals :=
  match remaining with
  | O => []
  | S remaining' =>
      trackStates g ++ tracksStates remaining' (iTrack + 1) (snd (readTrack iTrack g))
  end.

(** The name and the array that a call of [readTrack] stores, if any. *)
Definition trackBinding (iTrack : Z) (g : Globals) : option (string * list Event) :=
  match readTrackData iTrack g with
  | (Parsed trackData, g') => Some (tempTrackName g', trackData)
  | _ => None
  end.

Fixpoint trackBindings (remaining : nat) (iTrack : Z) (g : Globals)
  : list (option (string * list Event)) :=
  match remaining with
  | O => []
  | S remaining' =>
      trackBinding iTrack g ::
      trackBindings remaining' (iTrack + 1) (snd (readTrack iTrack g))
  end.

Definition storeBinding (d : gmap string (list Event))
    (b : option (string * list Event)) : gmap string (list Event) :=
  match b with
  | Some (name, trackData) => assignProperty name trackData d
  | None => d
  end.

(** The state in which the loop over the tracks starts. *)
Definition afterHeader (file : list byte) (bpm : option float) (g : Globals)
  : Globals :=
  snd (parseHeader (snd (readArguments file bpm (initGlobals g)))).

(** The number of iterations of the loop over the tracks. *)
Definition headerTracks (file : list byte) (bpm : option float) (g : Globals)
  : nat :=
  match fst (parseHeader (snd (readArguments file bpm (initGlobals g)))) with
  | inr numTracks => trackCount numTracks
  | inl _ => O
  end.

(** The fields that reading tracks never assigns. *)
Definition sameArgs (g g' : Globals) : Prop :=
  overrideTempoBPM g' = overrideTempoBPM g /\
  overrideTempo g' = overrideTempo g /\
  division g' = division g /\
  bytes g' = bytes g.

(** The override computed from the optional argument (lines 280-284). *)
Definition overrideOf (bpm : option float) : float :=
  match bpm with
  | Some b => (60000000 / b)%float
  | None => 0%float
  end.

(** The running status and the tempo put back to their initial values,
    the other globals as they are. *)
Definition resetStatusAndTempo (g : Globals) : Globals :=
  set_runningStatus None (set_tempo 500000 g).

(** The cursor put back to the start of the buffer. *)
Definition rewind (g : Globals) : Globals := set_byteIndex 0 g.

(** [commutes f m]: the computation [m] neither reads nor writes what the
    update [f] of the globals changes, so that [f] can as well be made
    after [m]. *)
Definition commutes {A : Type} (f : Globals -> Globals) (m : M A) : Prop :=
  forall g, m (f g) = (fst (m g), f (snd (m g))).

(** The tick times of a list of events never go back. *)
Definition timesSorted (l : list Event) : Prop :=
  StronglySorted (fun a b => time a <= time b) l.

(** ** Example inputs *)

(** A header chunk: format 1, [numTracks] tracks, 480 ticks per quarter
    note. *)
Definition headerBytes (numTracks : byte) : list byte :=
  [x4d; x54; x68; x64; x00; x00; x00; x06; x00; x01; x00; numTracks; x01; xe0].

(** A track chunk with a one-byte length. *)
Definition trackBytes (len : byte) (data : list byte) : list byte :=
  [x4d; x54; x72; x6b; x00; x00; x00; len] ++ data.

(** A state left behind by some earlier activity. *)
Definition staleGlobals : Globals :=
  mkGlobals "old" 1%float 2%float 3%float (Int 96) ∅ (Some (Int 0x90)) [xff] 7.

(** Two tracks: a note-on, then a track that opens with data bytes only. *)
Definition crossTrackFile : list byte :=
  headerBytes x02
    ++ trackBytes x04 [x00; x90; x3c; x40]
    ++ trackBytes x03 [x00; x3e; x00].

(** One track: a tempo event of 400000 microseconds, a note-on at tick
    96, the end of the track. *)
Definition tempoFile : list byte :=
  headerBytes x01
    ++ trackBytes x0f [x00; xff; x51; x03; x06; x1a; x80;
                       x60; x90; x3c; x40;
                       x00; xff; x2f; x00].

(** One track whose name event carries the single byte [00]. *)
Definition zeroNameFile : list byte :=
  headerBytes x01
    ++ trackBytes x09 [x00; xff; x03; x01; x00;
                       x00; xff; x2f; x00].

(** The bytes of a name event for the name [s]. *)
Definition nameEvent (len : byte) (s : string) : list byte :=
  [x00; xff; x03; len] ++ list_byte_of_string s.

(** Two tracks with the same name, a note-on in the first and a note-off
    in the second. *)
Definition sameNameFile (len trackLen : byte) (s : string) : list byte :=
  headerBytes x02
    ++ trackBytes trackLen (nameEvent len s ++ [x00; x90; x3c; x40])
    ++ trackBytes trackLen (nameEvent len s ++ [x00; x80; x3c; x00]).

(** The state in which the second track of [crossTrackFile] is read. *)
Definition crossTrackEntry : Globals :=
  snd (readTrack 0 (afterHeader crossTrackFile None staleGlobals)).

(** A track chunk that names itself ["ab"] and changes the program. *)
Definition namedTrackCursor : Globals :=
  cursorAt (trackBytes x09 (nameEvent x02 "ab" ++ [x00; xc0; x05])) 0.

(** A track chunk with three events: a program change at tick 0, then a
    note-on and a note-off, both at tick 5. *)
Definition threeEventCursor : Globals :=
  cursorAt (trackBytes x0b [x00; xc0; x05;
                            x05; x90; x3c; x40;
                            x00; x80; x3c; x00]) 0.

(** ** Proof steps used throughout *)

(** Reduce the projections of updated globals. *)
Ltac simpl_globals :=
  cbn [tempTrackName tempo overrideTempoBPM overrideTempo division outputDict
       runningStatus bytes byteIndex
       set_tempTrackName set_tempo set_division set_outputDict set_runningStatus
       set_byteIndex set_overrideTempoBPM set_overrideTempo set_bytes] in *.

(** Turn the lengths of explicit byte lists into numerals. *)
Ltac norm_lengths H :=
  simpl in H;
  try change (Z.of_nat 4) with 4 in H;
  try change (Z.of_nat 2) with 2 in H.

(** Case analysis on every test in the goal. *)
Ltac break_ifs :=
  repeat match goal with
         | |- context [if ?c then _ else _] => destruct c
         end.

(** ** Arithmetic of the bit operators *)

Lemma toInt32_small z : - 2 ^ 31 <= z < 2 ^ 31 -> toInt32 z = z.
Proof.
  intros H. unfold toInt32.
  rewrite Z.mod_small by lia. lia.
Qed.

Lemma byteVal_range b : 0 <= byteVal b < 256.
Proof.
  unfold byteVal. pose proof (Byte.to_N_bounded b). lia.
Qed.

Lemma byteVal_byteOfZ z : 0 <= z < 256 -> byteVal (byteOfZ z) = z.
Proof.
  intros H. unfold byteVal, byteOfZ.
  destruct (Byte.of_N (Z.to_N z)) as [b|] eqn:E.
  - apply Byte.to_of_N in E. rewrite E. lia.
  - pose proof (Byte.to_of_N_option_map (Z.to_N z)) as HM.
    rewrite E in HM. simpl in HM.
    destruct (N.leb_spec (Z.to_N z) 255); [discriminate | lia].
Qed.

Lemma numToInt32_range x : - 2 ^ 31 <= numToInt32 x < 2 ^ 31.
Proof.
  destruct x as [|z]; simpl; [lia|].
  unfold toInt32. pose proof (Z.mod_pos_bound (z + 2 ^ 31) (2 ^ 32)). lia.
Qed.

(** [x & 0x7F] keeps the low seven bits. *)
Lemma js_and_7F_range x : 0 <= js_and x (Int 0x7F) < 128.
Proof.
  unfold js_and.
  replace (numToInt32 (Int 127)) with (Z.ones 7) by reflexivity.
  rewrite Z.land_ones by lia.
  pose proof (Z.mod_pos_bound (numToInt32 x) (2 ^ 7)).
  rewrite toInt32_small; lia.
Qed.

Lemma js_and_7F_small z : 0 <= z < 2 ^ 31 -> js_and (Int z) (Int 0x7F) = z mod 128.
Proof.
  intros H. unfold js_and.
  replace (numToInt32 (Int 127)) with (Z.ones 7) by reflexivity.
  rewrite Z.land_ones by lia. simpl numToInt32.
  rewrite (toInt32_small z) by lia.
  pose proof (Z.mod_pos_bound z (2 ^ 7)).
  rewrite toInt32_small; [reflexivity | lia].
Qed.

(** [x & 0x80] is the top bit of a byte. *)
Lemma land_80_byte z :
  0 <= z < 256 -> Z.land z 128 = if z <? 128 then 0 else 128.
Proof.
  intros H.
  assert (A : forallb (fun n => Z.land (Z.of_nat n) 128 =?
                                (if Z.of_nat n <? 128 then 0 else 128))
                      (seq 0 256) = true) by (vm_compute; reflexivity).
  rewrite forallb_forall in A.
  specialize (A (Z.to_nat z)).
  rewrite Z2Nat.id in A by lia.
  apply Z.eqb_eq, A, in_seq. lia.
Qed.

Lemma js_and_80_byte z :
  0 <= z < 256 -> js_and (Int z) (Int 0x80) = if z <? 128 then 0 else 128.
Proof.
  intros H. unfold js_and. simpl numToInt32.
  rewrite (toInt32_small z) by lia.
  rewrite (toInt32_small 128) by lia.
  rewrite land_80_byte by lia.
  destruct (z <? 128); reflexivity.
Qed.

(** [acc << 7 | low] appends seven bits while the result fits an int32. *)
Lemma shift_or_append acc low :
  0 <= acc < 2 ^ 24 -> 0 <= low < 128 ->
  js_or (Int (js_shl (Int acc) 7)) (Int low) = acc * 128 + low.
Proof.
  intros Ha Hl. unfold js_or, js_shl. simpl numToInt32.
  rewrite (toInt32_small acc) by lia.
  change (7 mod 32) with 7.
  rewrite Z.shiftl_mul_pow2 by lia. change (2 ^ 7) with 128.
  rewrite (toInt32_small (acc * 128)) by lia.
  rewrite (toInt32_small (acc * 128)) by lia.
  rewrite (toInt32_small low) by lia.
  assert (E : Z.land (acc * 128) low = 0).
  { apply Z.bits_inj'. intros n Hn. rewrite Z.land_spec, Z.bits_0.
    destruct (Z.ltb_spec n 7).
    - change 128 with (2 ^ 7). rewrite Z.mul_pow2_bits_low by lia. reflexivity.
    - replace (Z.testbit low n) with false; [apply andb_false_r|].
      symmetry. apply Z.bits_above_log2; [lia|].
      destruct (Z.eq_dec low 0) as [->|]; [simpl; lia|].
      apply Z.log2_lt_pow2; [lia|].
      apply Z.lt_le_trans with (2 ^ 7); [lia|].
      apply Z.pow_le_mono_r; lia. }
  pose proof (Z.add_lor_land (acc * 128) low) as HA.
  rewrite E in HA. rewrite Z.add_0_r in HA. rewrite HA.
  apply toInt32_small. lia.
Qed.

(** ** The cursor *)

Lemma set_byteIndex_id g : set_byteIndex (byteIndex g) g = g.
Proof. destruct g; reflexivity. Qed.

Lemma slice_forward bs i n :
  0 <= i -> 0 <= n ->
  slice bs i (i + n) = firstn (Z.to_nat n) (skipn (Z.to_nat i) bs).
Proof.
  intros Hi Hn. unfold slice, clampIndex.
  destruct (Z.ltb_spec i 0); [lia|].
  destruct (Z.ltb_spec (i + n) 0); [lia|].
  set (len := Z.of_nat (length bs)).
  destruct (Z_le_gt_dec len i) as [Hge|Hlt].
  - rewrite !skipn_all2 by lia. rewrite !firstn_nil. reflexivity.
  - rewrite (Z.min_l i len) by lia.
    destruct (Z_le_gt_dec (i + n) len).
    + rewrite Z.min_l by lia. f_equal. lia.
    + rewrite Z.min_r by lia.
      rewrite !firstn_all2; [reflexivity | |]; rewrite length_skipn; lia.
Qed.

Lemma readBytes_forward n g :
  0 <= byteIndex g -> 0 <= n ->
  readBytes n g =
    (firstn (Z.to_nat n) (remainingBytes g), set_byteIndex (byteIndex g + n) g).
Proof.
  intros Hi Hn. unfold readBytes, remainingBytes.
  rewrite slice_forward by assumption. reflexivity.
Qed.

Lemma remainingBytes_advance g n :
  0 <= byteIndex g -> 0 <= n ->
  remainingBytes (set_byteIndex (byteIndex g + n) g) =
    skipn (Z.to_nat n) (remainingBytes g).
Proof.
  intros Hi Hn. unfold remainingBytes. simpl.
  rewrite skipn_skipn. f_equal. lia.
Qed.

(** Reading one byte when the next bytes are known. *)
Lemma readBytes_next g b l :
  nextBytes g (b :: l) ->
  readBytes 1 g = ([b], set_byteIndex (byteIndex g + 1) g) /\
  nextBytes (set_byteIndex (byteIndex g + 1) g) l.
Proof.
  intros [Hi Hf]. rewrite readBytes_forward by lia.
  unfold nextBytes. rewrite remainingBytes_advance by lia.
  simpl length in Hf. change (Z.to_nat 1) with 1%nat.
  destruct (remainingBytes g) as [|b' r]; [discriminate|].
  simpl in Hf. injection Hf as -> Hl.
  simpl. repeat split; [lia | assumption].
Qed.

(** ** Variable-length quantities: what the decoder returns on any input *)

Lemma vlLoop_spec fuel : forall acc byte cnt g,
  0 <= cnt <= 3 -> (Z.to_nat (3 - cnt) <= fuel)%nat -> 0 <= acc < 128 ^ cnt ->
  exists acc' byte' cnt',
    vlLoop fuel acc byte cnt g =
      ((acc', byte', cnt'), set_byteIndex (byteIndex g + (cnt' - cnt)) g) /\
    cnt <= cnt' <= 3 /\ 0 <= acc' < 128 ^ cnt' /\
    (cnt' < 3 -> js_and byte' (Int 0x80) = 0).
Proof.
  induction fuel as [|fuel IH]; intros acc byte cnt g Hc Hf Ha.
  - assert (cnt = 3) by lia. subst cnt.
    exists acc, byte, 3. simpl. unfold ret.
    rewrite Z.sub_diag, Z.add_0_r, set_byteIndex_id.
    repeat split; lia.
  - simpl.
    destruct (negb (js_and byte (Int 128) =? 0) && (cnt <? 3)) eqn:G.
    + apply andb_true_iff in G as [G1 G2]. apply Z.ltb_lt in G2.
      pose proof (js_and_7F_range byte) as HL.
      assert (HB : 0 <= acc < 2 ^ 24).
      { assert (cnt = 0 \/ cnt = 1 \/ cnt = 2) as [-> | [-> | ->] ] by lia;
          simpl in Ha; lia. }
      rewrite shift_or_append by assumption.
      unfold bind at 1. unfold readBytes at 1.
      destruct (IH (acc * 128 + js_and byte (Int 127))
                   (bufferToNumber
                      (slice (bytes g) (byteIndex g) (byteIndex g + 1)))
                   (cnt + 1) (set_byteIndex (byteIndex g + 1) g))
        as (acc' & byte' & cnt' & E & Hc' & Ha' & Hb'); [lia | lia | |].
      { assert (cnt = 0 \/ cnt = 1 \/ cnt = 2) as [-> | [-> | ->] ] by lia;
          simpl in Ha |- *; lia. }
      exists acc', byte', cnt'. rewrite E.
      split; [|repeat split; try lia; assumption].
      unfold set_byteIndex; simpl. do 2 f_equal. lia.
    + exists acc, byte, cnt. unfold ret.
      rewrite Z.sub_diag, Z.add_0_r, set_byteIndex_id.
      repeat split; lia.
Qed.

(** On every input the decoder returns a value of at most 28 bits and a
    count between 1 and 4, and moves the cursor by exactly that count. *)
Lemma readVariableLength_spec g :
  exists v c,
    readVariableLength g = ((v, c), set_byteIndex (byteIndex g + c) g) /\
    0 <= v < 2 ^ 28 /\ 1 <= c <= 4.
Proof.
  unfold readVariableLength. unfold bind at 1. unfold readBytes at 1.
  destruct (vlLoop_spec 3 0
              (bufferToNumber (slice (bytes g) (byteIndex g) (byteIndex g + 1)))
              0 (set_byteIndex (byteIndex g + 1) g))
    as (acc & byte & cnt & E & Hc & Ha & _); [lia | simpl; lia | simpl; lia |].
  unfold bind. rewrite E.
  pose proof (js_and_7F_range byte) as HL.
  assert (HB : 0 <= acc < 2 ^ 21).
  { assert (cnt = 0 \/ cnt = 1 \/ cnt = 2 \/ cnt = 3) as [-> | [-> | [-> | ->] ] ] by lia;
      simpl in Ha; lia. }
  rewrite shift_or_append by lia.
  exists (acc * 128 + js_and byte (Int 127)), (cnt + 1).
  unfold ret. split; [|split; [lia|lia]].
  unfold set_byteIndex; simpl. do 2 f_equal. lia.
Qed.

(** ** Variable-length quantities: decoding an encoded value *)

Lemma bufferToNumber_single b : bufferToNumber [b] = Int (byteVal b).
Proof. reflexivity. Qed.

Lemma vlLoop_stop fuel acc z cnt g :
  0 <= z < 128 -> vlLoop fuel acc (Int z) cnt g = ((acc, Int z, cnt), g).
Proof.
  intros Hz. destruct fuel; [reflexivity|]. simpl.
  rewrite js_and_80_byte by lia.
  destruct (Z.ltb_spec z 128); [reflexivity | lia].
Qed.

Lemma vlLoop_cont fuel acc r cnt g b l :
  0 <= r < 128 -> cnt < 3 -> 0 <= acc < 2 ^ 24 -> nextBytes g (b :: l) ->
  vlLoop (S fuel) acc (Int (128 + r)) cnt g =
    vlLoop fuel (acc * 128 + r) (Int (byteVal b)) (cnt + 1)
           (set_byteIndex (byteIndex g + 1) g).
Proof.
  intros Hr Hc Ha Hn. simpl.
  rewrite js_and_80_byte by lia.
  destruct (Z.ltb_spec (128 + r) 128); [lia|].
  destruct (Z.ltb_spec cnt 3); [|lia].
  rewrite js_and_7F_small by lia.
  replace ((128 + r) mod 128) with r
    by (apply Z.mod_unique with (q := 1); lia).
  rewrite shift_or_append by lia.
  destruct (readBytes_next g b l Hn) as [E _].
  change (negb (128 =? 0) && true) with true. cbv iota.
  unfold bind. rewrite E. reflexivity.
Qed.

Lemma groupsOf_range n : forall q,
  0 <= q -> Forall (fun r => 0 <= r < 128) (groupsOf n q).
Proof.
  induction n as [|n IH]; intros q Hq; simpl; [constructor|].
  destruct (q =? 0); [constructor|].
  apply Forall_app. split.
  - apply IH. apply Z.div_pos; lia.
  - constructor; [|constructor]. apply Z.mod_pos_bound. lia.
Qed.

Lemma groupsOf_length n : forall q, (length (groupsOf n q) <= n)%nat.
Proof.
  induction n as [|n IH]; intros q; simpl; [lia|].
  destruct (q =? 0); simpl; [lia|].
  rewrite length_app. simpl. specialize (IH (q / 128)). lia.
Qed.

Lemma appendGroups_groupsOf n : forall q,
  0 <= q < 128 ^ Z.of_nat n -> appendGroups 0 (groupsOf n q) = q.
Proof.
  induction n as [|n IH]; intros q Hq.
  - simpl in *. lia.
  - simpl groupsOf. destruct (Z.eqb_spec q 0) as [->|Hne]; [reflexivity|].
    unfold appendGroups. rewrite fold_left_app. simpl.
    fold (appendGroups 0 (groupsOf n (q / 128))).
    rewrite IH.
    + pose proof (Z.div_mod q 128). lia.
    + rewrite Nat2Z.inj_succ, Z.pow_succ_r in Hq by lia.
      split; [apply Z.div_pos; lia|].
      apply Z.div_lt_upper_bound; lia.
Qed.

Lemma continuationBytes_groupsOf n : forall q,
  continuationBytes n q = map (fun r => byteOfZ (128 + r)) (groupsOf n q).
Proof.
  induction n as [|n IH]; intros q; simpl; [reflexivity|].
  destruct (q =? 0); [reflexivity|].
  rewrite map_app, IH. reflexivity.
Qed.

(** The loop consumes a run of continuation bytes followed by a final
    byte: [b] is the byte in hand, [tl] the bytes at the cursor. *)
Lemma vlLoop_groups l : forall rs fuel acc cnt g b tl,
  Forall (fun r => 0 <= r < 128) rs -> 0 <= l < 128 ->
  0 <= cnt -> cnt + Z.of_nat (length rs) <= 3 -> (length rs <= fuel)%nat ->
  0 <= acc < 128 ^ cnt ->
  map (fun r => byteOfZ (128 + r)) rs ++ [byteOfZ l] = b :: tl ->
  nextBytes g tl ->
  vlLoop fuel acc (Int (byteVal b)) cnt g =
    ((appendGroups acc rs, Int l, cnt + Z.of_nat (length rs)),
     set_byteIndex (byteIndex g + Z.of_nat (length rs)) g).
Proof.
  induction rs as [|r rs IH]; intros fuel acc cnt g b tl HF Hl Hc Hlen Hfuel Ha HE HN.
  - simpl in HE. injection HE as <- <-.
    rewrite byteVal_byteOfZ by lia. rewrite vlLoop_stop by lia.
    simpl. rewrite Z.add_0_r, Z.add_0_r, set_byteIndex_id. reflexivity.
  - simpl in HE. injection HE as <- <-.
    inversion HF as [|? ? Hr HF']; subst.
    simpl length in *.
    destruct fuel as [|fuel]; [lia|].
    rewrite byteVal_byteOfZ by lia.
    destruct (map (fun r0 => byteOfZ (128 + r0)) rs ++ [byteOfZ l])
      as [|b' tl'] eqn:EL.
    { destruct rs; discriminate. }
    assert (HB : 0 <= acc < 2 ^ 24).
    { assert (cnt = 0 \/ cnt = 1 \/ cnt = 2) as [-> | [-> | ->] ] by lia;
        simpl in Ha; lia. }
    rewrite (vlLoop_cont fuel acc r cnt g b' tl') by (assumption || lia).
    destruct (readBytes_next g b' tl' HN) as [_ HN'].
    rewrite (IH fuel (acc * 128 + r) (cnt + 1) _ b' tl');
      try assumption; try lia; try reflexivity.
    + replace (cnt + Z.of_nat (S (length rs)))
        with (cnt + 1 + Z.of_nat (length rs)) by lia.
      replace (byteIndex g + Z.of_nat (S (length rs)))
        with (byteIndex g + 1 + Z.of_nat (length rs)) by lia.
      reflexivity.
    + assert (cnt = 0 \/ cnt = 1 \/ cnt = 2) as [-> | [-> | ->] ] by lia;
        simpl in Ha |- *; lia.
Qed.

Lemma encodeVarLen_length v :
  (1 <= length (encodeVarLen v) <= 4)%nat.
Proof.
  unfold encodeVarLen. rewrite continuationBytes_groupsOf.
  rewrite length_app, length_map.
  change (length [byteOfZ (v mod 128)]) with 1%nat.
  pose proof (groupsOf_length 3 (v / 128)). lia.
Qed.

(** Decoding the encoding of a value. *)
Lemma readVariableLength_encoded (v : Z) (g : Globals) :
  0 <= v < 2 ^ 28 ->
  nextBytes g (encodeVarLen v) ->
  readVariableLength g =
    ((v, Z.of_nat (length (encodeVarLen v))),
     set_byteIndex (byteIndex g + Z.of_nat (length (encodeVarLen v))) g).
Proof.
  intros Hv HN. unfold encodeVarLen in *.
  rewrite continuationBytes_groupsOf in *.
  set (rs := groupsOf 3 (v / 128)) in *.
  set (l := v mod 128) in *.
  assert (Hq : 0 <= v / 128 < 128 ^ Z.of_nat 3).
  { split; [apply Z.div_pos; lia|]. apply Z.div_lt_upper_bound; simpl; lia. }
  assert (Hl : 0 <= l < 128) by (apply Z.mod_pos_bound; lia).
  assert (HF : Forall (fun r => 0 <= r < 128) rs)
    by (apply groupsOf_range; lia).
  pose proof (groupsOf_length 3 (v / 128)) as HL. fold rs in HL.
  destruct (map (fun r => byteOfZ (128 + r)) rs ++ [byteOfZ l])
    as [|b tl] eqn:EL.
  { destruct rs; discriminate. }
  assert (Hlen : length (b :: tl) = S (length rs)).
  { rewrite <- EL, length_app, length_map. simpl. lia. }
  destruct (readBytes_next g b tl HN) as [E HN'].
  unfold readVariableLength, bind. rewrite E, bufferToNumber_single.
  rewrite (vlLoop_groups l rs 3 0 0 _ b tl); try assumption; try lia.
  pose proof (appendGroups_groupsOf 3 (v / 128) Hq) as HA. fold rs in HA.
  rewrite HA. rewrite js_and_7F_small by lia.
  rewrite (Z.mod_small l) by lia.
  rewrite shift_or_append by (simpl in Hq; lia).
  rewrite Hlen. pose proof (Z.div_mod v 128).
  replace (v / 128 * 128 + l) with v by (subst l; lia).
  replace (0 + Z.of_nat (length rs) + 1) with (Z.of_nat (S (length rs))) by lia.
  replace (byteIndex g + Z.of_nat (S (length rs)))
    with (byteIndex g + 1 + Z.of_nat (length rs)) by lia.
  reflexivity.
Qed.

(** C2.  The decoder inverts the canonical encoder: for every value of at
    most 28 bits (the values with an encoding of one to four bytes), when the
    bytes at the cursor are the encoding of the value, [readVariableLength]
    returns the value together with the length of the encoding, and leaves
    the cursor just behind the encoding. *)
Theorem readVariableLength_roundtrip (v : Z) (g : Globals) :
  0 <= v < 2 ^ 28 ->
  nextBytes g (encodeVarLen v) ->
  let n := Z.of_nat (length (encodeVarLen v)) in
  readVariableLength g = ((v, n), set_byteIndex (byteIndex g + n) g) /\
  1 <= n <= 4.
Proof.
  intros Hv HN n. split.
  - apply readVariableLength_encoded; assumption.
  - pose proof (encodeVarLen_length v). lia.
Qed.

(** ** What one decoder call does to the globals *)

Lemma sameEnv_refl g : sameEnv g g.
Proof. repeat split. Qed.

Lemma sameEnv_trans g1 g2 g3 : sameEnv g1 g2 -> sameEnv g2 g3 -> sameEnv g1 g3.
Proof.
  unfold sameEnv. intros (A1 & A2 & A3 & A4 & A5) (B1 & B2 & B3 & B4 & B5).
  repeat split; congruence.
Qed.

Lemma vlLoop_frame fuel : forall acc byte cnt g g',
  bytes g = bytes g' -> byteIndex g = byteIndex g' ->
  fst (vlLoop fuel acc byte cnt g) = fst (vlLoop fuel acc byte cnt g').
Proof.
  induction fuel as [|fuel IH]; intros acc byte cnt g g' Hb Hi; [reflexivity|].
  simpl. destruct (negb (js_and byte (Int 128) =? 0) && (cnt <? 3)); [|reflexivity].
  unfold bind, readBytes. rewrite Hb, Hi. apply IH; simpl; congruence.
Qed.

(** The decoder looks at the buffer and the cursor only. *)
Lemma readVariableLength_pure g :
  readVariableLength g =
    (decodeVarLen (bytes g) (byteIndex g),
     set_byteIndex (byteIndex g + snd (decodeVarLen (bytes g) (byteIndex g))) g).
Proof.
  assert (E : fst (readVariableLength g) = decodeVarLen (bytes g) (byteIndex g)).
  { unfold decodeVarLen, readVariableLength, bind, readBytes. simpl bytes. simpl byteIndex.
    pose proof (vlLoop_frame 3 0
                  (bufferToNumber (slice (bytes g) (byteIndex g) (byteIndex g + 1))) 0
                  (set_byteIndex (byteIndex g + 1) g)
                  (set_byteIndex (byteIndex g + 1) (cursorAt (bytes g) (byteIndex g)))
                  eq_refl eq_refl) as HF.
    destruct (vlLoop 3 0 _ 0 (set_byteIndex (byteIndex g + 1) g)) as [[[a b] c] g1].
    destruct (vlLoop 3 0 _ 0 (set_byteIndex (byteIndex g + 1) (cursorAt _ _)))
      as [[[a' b'] c'] g2].
    simpl in HF. injection HF as -> -> ->. reflexivity. }
  destruct (readVariableLength_spec g) as (v & c & E' & _).
  rewrite E' in E |- *. simpl in E. rewrite <- E. reflexivity.
Qed.

Lemma decodeVarLen_range bs i :
  0 <= fst (decodeVarLen bs i) < 2 ^ 28 /\ 1 <= snd (decodeVarLen bs i) <= 4.
Proof.
  unfold decodeVarLen.
  destruct (readVariableLength_spec (cursorAt bs i)) as (v & c & E & Hv & Hc).
  rewrite E. simpl. lia.
Qed.

Lemma readEvent_spec td t hb g :
  exists td' n g',
    readEvent td t hb g = ((td', n), g') /\
    sameEnv g g' /\ tempo g' = tempo g /\ tempTrackName g' = tempTrackName g /\
    byteIndex g' = byteIndex g + n /\ 0 <= n <= 2 /\
    (td' = td \/ exists b, td' = td ++ [mkEvent b t None]).
Proof.
  unfold readEvent, bind, get, ret, modify, readBytes, push.
  destruct (num_ltb hb 128); [destruct (statusSet (runningStatus g));
                              [destruct (runningStatus g)|]|];
    break_ifs;
    (eexists _, _, _; split; [reflexivity|]; simpl;
     repeat split; try lia; eauto).
Qed.

Lemma readMetaEvent_spec td t g :
  let bs := bytes g in
  let i := byteIndex g in
  let ty := bufferToNumber (slice bs i (i + 1)) in
  let len := fst (decodeVarLen bs (i + 1)) in
  let c2 := snd (decodeVarLen bs (i + 1)) in
  let payload := slice bs (i + 1 + c2) (i + 1 + c2 + len) in
  exists g',
    readMetaEvent td t g =
      ((if 0 <? len then td
        else if num_eqb ty 0x2F then td ++ [mkEvent trackEnd t None] else td,
        if 0 <? len then 1 + c2 + len else 1 + c2), g') /\
    sameEnv g g' /\ runningStatus g' = None /\
    byteIndex g' = i + (if 0 <? len then 1 + c2 + len else 1 + c2) /\
    tempo g' = (if (0 <? len) && num_eqb ty 0x51
                then toFloat (bufferToNumber payload) else tempo g) /\
    tempTrackName g' = (if (0 <? len) && num_eqb ty 0x03 && truthy (bufferToNumber payload)
                        then asciiString payload else tempTrackName g).
Proof.
  intros bs i ty len c2 payload. subst bs i ty len c2 payload.
  unfold readMetaEvent, bind, modify, readBytes.
  rewrite readVariableLength_pure. simpl_globals.
  destruct (decodeVarLen (bytes g) (byteIndex g + 1)) as [len c2].
  simpl fst. simpl snd.
  destruct (0 <? len) eqn:Hlen; cbv beta; simpl_globals.
  - destruct (bufferToNumber (slice (bytes g) (byteIndex g) (byteIndex g + 1)))
      as [|z]; cbn [num_eqb andb].
    + eexists. split; [reflexivity|]. simpl_globals. repeat split; lia.
    + destruct (Z.eqb_spec z 3) as [->|H3].
      * destruct (truthy _);
          (eexists; split; [reflexivity|]; simpl_globals; repeat split; lia).
      * destruct (z =? 81);
          (eexists; split; [reflexivity|]; simpl_globals; repeat split; lia).
  - cbn [andb]. destruct (num_eqb _ 47);
      (eexists; split; [reflexivity|]; simpl_globals; repeat split; lia).
Qed.

Lemma readSysex_spec td t hb g :
  let len := fst (decodeVarLen (bytes g) (byteIndex g)) in
  let c := snd (decodeVarLen (bytes g) (byteIndex g)) in
  exists g',
    readSysex td t hb g = ((td, len + c), g') /\
    sameEnv g g' /\ tempo g' = tempo g /\ tempTrackName g' = tempTrackName g /\
    byteIndex g' = byteIndex g + (len + c) /\
    runningStatus g' = (if num_ltb hb 0xF8 then None else runningStatus g).
Proof.
  intros len c. subst len c. unfold readSysex, bind, modify, readBytes, ret.
  destruct (num_ltb hb 248); rewrite readVariableLength_pure;
    simpl_globals;
    destruct (decodeVarLen (bytes g) (byteIndex g)) as [len c];
    (eexists; split; [reflexivity|]; simpl; repeat split; lia).
Qed.

(** One pass through the loop body: the cursor moves by exactly the bytes
    that are counted, at least two of them; the tick time does not go
    back; at most one event is appended; [tempo] and [tempTrackName]
    change only as [tempoWrite] and [nameWrite] say. *)
Lemma trackIteration_spec t td g :
  exists t' td' n g',
    trackIteration t td g = ((t', td', n), g') /\
    sameEnv g g' /\ byteIndex g' = byteIndex g + n /\ 2 <= n /\ t <= t' /\
    tempo g' = default (tempo g) (tempoWrite g) /\
    tempTrackName g' = default (tempTrackName g) (nameWrite g) /\
    (td' = td \/ exists b, td' = td ++ [mkEvent b t' None]).
Proof.
  unfold trackIteration, bind, readBytes.
  rewrite readVariableLength_pure.
  unfold tempoWrite, nameWrite, metaAt.
  pose proof (decodeVarLen_range (bytes g) (byteIndex g)) as [Hv Hc].
  destruct (decodeVarLen (bytes g) (byteIndex g)) as [v c].
  cbn [fst snd] in *. simpl_globals.
  set (hb := bufferToNumber (slice (bytes g) (byteIndex g + c) (byteIndex g + c + 1))).
  destruct (num_eqb hb 255) eqn:Hff.
  - set (g2 := set_byteIndex (byteIndex g + c + 1) (set_byteIndex (byteIndex g + c) g)).
    destruct (readMetaEvent_spec td (t + v) g2)
      as (g' & E & HS & _ & HI & HT & HN).
    subst g2. simpl_globals. rewrite E. unfold ret.
    pose proof (decodeVarLen_range (bytes g) (byteIndex g + c + 1 + 1)) as [Hv2 Hc2].
    eexists _, _, _, _. split; [reflexivity|].
    repeat split; try apply HS.
    + rewrite HI. destruct (0 <? _); lia.
    + destruct (0 <? fst _) eqn:Hl; lia.
    + lia.
    + rewrite HT. destruct (0 <? fst _); [|reflexivity].
      cbn [andb]. destruct (num_eqb _ 81); reflexivity.
    + rewrite HN. destruct (0 <? fst _); [|reflexivity].
      cbn [andb]. destruct (num_eqb _ 3); [|reflexivity].
      cbn [andb]. destruct (truthy _); reflexivity.
    + destruct (0 <? fst _); [left; reflexivity|].
      destruct (num_eqb _ 47); [right; eexists; reflexivity | left; reflexivity].
  - destruct (js_and hb (Int 240) =? 240).
    + set (g2 := set_byteIndex (byteIndex g + c + 1) (set_byteIndex (byteIndex g + c) g)).
      destruct (readSysex_spec td (t + v) hb g2)
        as (g' & E & HS & HT & HN & HI & _).
      pose proof (decodeVarLen_range (bytes g2) (byteIndex g2)) as [Hv2 Hc2].
      rewrite E. unfold ret.
      eexists _, _, _, _. split; [reflexivity|].
      repeat split; try apply HS; try assumption; try lia.
      * rewrite HI. subst g2. simpl_globals. lia.
      * left. reflexivity.
    + set (g2 := set_byteIndex (byteIndex g + c + 1) (set_byteIndex (byteIndex g + c) g)).
      destruct (readEvent_spec td (t + v) hb g2)
        as (td' & n & g' & E & HS & HT & HN & HI & Hn & Htd).
      rewrite E. unfold ret.
      eexists _, _, _, _. split; [reflexivity|].
      repeat split; try apply HS; try assumption; try lia.
      rewrite HI. subst g2. simpl_globals. lia.
Qed.

(** ** The track loop *)

Lemma last_cons_default {A : Type} (l : list A) :
  forall y d, List.last (y :: l) d = List.last l y.
Proof.
  induction l as [|z l IH]; intros y d; [reflexivity|].
  change (List.last (y :: z :: l) d) with (List.last (z :: l) d).
  rewrite !IH. reflexivity.
Qed.

Lemma last_omap_step {A B : Type} (f : A -> option B) x l d :
  List.last (omap f (x :: l)) d = List.last (omap f l) (default d (f x)).
Proof.
  cbn [omap list_omap]. destruct (f x) as [y|]; [|reflexivity].
  apply last_cons_default.
Qed.

Lemma last_app_default {A : Type} (l1 l2 : list A) :
  forall d, List.last (l1 ++ l2) d = List.last l2 (List.last l1 d).
Proof.
  induction l1 as [|x l1 IH]; intros d; [reflexivity|].
  rewrite <- app_comm_cons, !last_cons_default. apply IH.
Qed.

(** The loop always ends by its guard when it is given [trackLength]
    units of fuel, it only moves forward, and the [tempo] and the name it
    leaves are the last ones written by the events it went through. *)
Lemma trackLoop_spec fuel : forall len t td g,
  (Z.to_nat len <= fuel)%nat ->
  exists td' g',
    trackLoop fuel len t td g = (Some td', g') /\
    sameEnv g g' /\
    byteIndex g + Z.max 0 len <= byteIndex g' /\
    tempo g' = List.last (omap tempoWrite (loopStates fuel len t td g)) (tempo g) /\
    tempTrackName g' =
      List.last (omap nameWrite (loopStates fuel len t td g)) (tempTrackName g).
Proof.
  induction fuel as [|fuel IH]; intros len t td g Hf.
  - simpl. destruct (Z.ltb_spec 0 len); [lia|].
    exists td, g. unfold ret. repeat split; lia.
  - simpl. destruct (Z.ltb_spec 0 len) as [Hlen|Hlen].
    + destruct (trackIteration_spec t td g)
        as (t' & td1 & n & g1 & E & HS & HI & Hn & _ & HT & HN & _).
      unfold bind. rewrite E.
      destruct (IH (len - n) t' td1 g1) as (td' & g' & E' & HS' & HI' & HT' & HN');
        [lia|].
      exists td', g'. rewrite E'.
      split; [reflexivity|]. split; [eapply sameEnv_trans; eassumption|].
      split; [lia|]. split.
      * rewrite HT', HT. symmetry. apply last_omap_step.
      * rewrite HN', HN. symmetry. apply last_omap_step.
    + exists td, g. unfold ret. repeat split; lia.
Qed.

(** ** Whole tracks *)

Lemma asciiString_nonempty b l : asciiString (b :: l) <> ""%string.
Proof. unfold asciiString. simpl. discriminate. Qed.

Lemma nameWrite_nonempty g s : nameWrite g = Some s -> s <> ""%string.
Proof.
  unfold nameWrite. destruct (metaAt g) as [[ty payload]|]; [|discriminate].
  destruct (num_eqb ty 3); [|discriminate]. cbn [andb].
  destruct payload as [|b l]; [discriminate|].
  destruct (truthy _); [|discriminate].
  intros [= <-]. apply asciiString_nonempty.
Qed.

Lemma last_in_or_default {A : Type} (l : list A) :
  forall d, l = [] \/ In (List.last l d) l.
Proof.
  induction l as [|x l IH]; intros d; [left; reflexivity|]. right.
  rewrite last_cons_default. destruct (IH x) as [->|H]; [left; reflexivity|].
  right. exact H.
Qed.

Lemma last_nonempty_default {A : Type} (l : list A) d d' :
  l <> [] -> List.last l d = List.last l d'.
Proof.
  destruct l as [|x l]; [congruence|]. intros _.
  rewrite !last_cons_default. reflexivity.
Qed.

Lemma last_nameWrite_nonempty states d :
  omap nameWrite states <> [] ->
  List.last (omap nameWrite states) d <> ""%string.
Proof.
  intros Hne.
  destruct (last_in_or_default (omap nameWrite states) d) as [E|HIn];
    [congruence|].
  apply list_elem_of_In, list_elem_of_omap in HIn.
  destruct HIn as (s & _ & Hs). eapply nameWrite_nonempty, Hs.
Qed.

(** Lines 76-113 never run out of fuel; without the chunk tag they only
    move the cursor by four; otherwise the name they leave is the last one
    written by a name event of the track, or the default. *)
Lemma readTrackData_spec i g :
  exists r g',
    readTrackData i g = (r, g') /\
    r <> LoopOutOfFuel /\
    sameEnv g g' /\
    byteIndex g <= byteIndex g' /\
    tempo g' = List.last (omap tempoWrite (trackStates g)) (tempo g) /\
    (r = NoTrackHeader -> g' = set_byteIndex (byteIndex g + 4) g) /\
    (forall td, r = Parsed td ->
       tempTrackName g' =
         List.last (omap nameWrite (trackStates g))
                   ("Track " ++ numberToString i)%string).
Proof.
  unfold readTrackData, trackStates, bind, readBytes.
  destruct (negb (bufferEqString _ trackChunk)).
  - eexists _, _. split; [reflexivity|].
    repeat split; simpl_globals; try lia; try discriminate.
  - unfold trackBody, bind, modify. simpl_globals.
    set (lenBuf := slice (bytes g) (byteIndex g + 4) (byteIndex g + 4 + 4)).
    set (g2 := set_tempTrackName "" _).
    destruct (bufferToNumber lenBuf) as [|len].
    + eexists _, _. split; [reflexivity|].
      subst g2. unfold ret. simpl_globals.
      change (("" =? "")%string) with true. cbv iota.
      repeat split; simpl_globals; try lia; try discriminate.
    + destruct (trackLoop_spec (Z.to_nat len) len 0 [] g2 (le_n _))
        as (td & g' & E & HS & HI & HT & HN).
      rewrite E. unfold ret.
      eexists _, _. split; [reflexivity|].
      subst g2. simpl_globals.
      split; [discriminate|].
      split; [destruct (String.eqb _ ""); simpl_globals; exact HS|].
      split; [destruct (String.eqb _ ""); simpl_globals; lia|].
      split; [destruct (String.eqb _ ""); simpl_globals; exact HT|].
      split; [discriminate|].
      intros td' _.
      remember (omap nameWrite
                  (loopStates (Z.to_nat len) len 0 []
                     (set_tempTrackName ""
                        (set_byteIndex (byteIndex g + 4 + 4)
                           (set_byteIndex (byteIndex g + 4) g))))) as names eqn:EN.
      destruct names as [|s l].
      * simpl in HN. rewrite HN.
        change (("" =? "")%string) with true. cbv iota. reflexivity.
      * assert (HL : List.last (s :: l) ""%string <> ""%string).
        { rewrite EN. apply last_nameWrite_nonempty. rewrite <- EN. discriminate. }
        destruct (String.eqb_spec (tempTrackName g') "") as [Heq|_];
          [congruence|].
        rewrite HN. apply last_nonempty_default. discriminate.
Qed.

Lemma sameEnv_sameArgs g g' : sameEnv g g' -> sameArgs g g'.
Proof. intros (A & B & C & _ & D). repeat split; assumption. Qed.

Lemma sameArgs_trans g1 g2 g3 : sameArgs g1 g2 -> sameArgs g2 g3 -> sameArgs g1 g3.
Proof.
  unfold sameArgs. intros (A1 & A2 & A3 & A4) (B1 & B2 & B3 & B4).
  repeat split; congruence.
Qed.

(** [readTrack] always returns; it stores the binding of the track, if
    there is one, and touches nothing else of the dictionary. *)
Lemma readTrack_spec i g :
  exists g',
    readTrack i g = (Some tt, g') /\
    sameArgs g g' /\
    byteIndex g <= byteIndex g' /\
    tempo g' = List.last (omap tempoWrite (trackStates g)) (tempo g) /\
    outputDict g' = storeBinding (outputDict g) (trackBinding i g).
Proof.
  unfold readTrack, trackBinding, bind.
  destruct (readTrackData_spec i g)
    as (r & g1 & E & Hr & HS & HI & HT & _ & _).
  rewrite E. pose proof (sameEnv_sameArgs _ _ HS) as HA.
  destruct HS as (_ & _ & _ & HO & _).
  destruct r as [|td|]; [| |congruence]; unfold ret, modify.
  - exists g1. repeat split; try apply HA; try assumption.
  - eexists. split; [reflexivity|]. simpl_globals.
    repeat split; try apply HA; try assumption.
    simpl. rewrite HO. reflexivity.
Qed.

Lemma readTracks_spec n : forall i g,
  exists g',
    readTracks n i g = (Some tt, g') /\
    sameArgs g g' /\
    byteIndex g <= byteIndex g' /\
    tempo g' = List.last (omap tempoWrite (tracksStates n i g)) (tempo g) /\
    outputDict g' = fold_left storeBinding (trackBindings n i g) (outputDict g).
Proof.
  induction n as [|n IH]; intros i g.
  - exists g. repeat split. lia.
  - destruct (readTrack_spec i g) as (g1 & E & HA & HI & HT & HO).
    destruct (IH (i + 1) g1) as (g' & E' & HA' & HI' & HT' & HO').
    exists g'. cbn [readTracks tracksStates trackBindings].
    unfold bind. rewrite E. cbn [snd].
    split; [exact E'|]. split; [eapply sameArgs_trans; eassumption|].
    split; [lia|]. split.
    + rewrite HT', HT, omap_app, last_app_default. reflexivity.
    + rewrite HO', HO. reflexivity.
Qed.

(** ** The script *)

Lemma readHeaderVals_state n : forall g,
  snd (readHeaderVals n g) = set_byteIndex (byteIndex g + 2 * Z.of_nat n) g.
Proof.
  induction n as [|n IH]; intros g.
  - simpl. rewrite Z.add_0_r, set_byteIndex_id. reflexivity.
  - cbn [readHeaderVals]. unfold bind, readBytes.
    specialize (IH (set_byteIndex (byteIndex g + 2) g)).
    destruct (readHeaderVals n _) as [rest g1]. simpl in IH. subst g1.
    unfold ret. simpl_globals. unfold set_byteIndex. simpl. f_equal. lia.
Qed.

(** The header chunk only moves the cursor and assigns [division]. *)
Lemma parseHeader_frame g :
  let g' := snd (parseHeader g) in
  tempTrackName g' = tempTrackName g /\ tempo g' = tempo g /\
  overrideTempoBPM g' = overrideTempoBPM g /\ overrideTempo g' = overrideTempo g /\
  outputDict g' = outputDict g /\ runningStatus g' = runningStatus g /\
  bytes g' = bytes g.
Proof.
  unfold parseHeader, bind, readBytes.
  destruct (negb (bufferEqString _ headerChunk)); [repeat split|].
  simpl_globals.
  pose proof (readHeaderVals_state
                (headerValCount
                   (bufferToNumber
                      (slice (bytes g) (byteIndex g + 4) (byteIndex g + 4 + 4))))
                (set_byteIndex (byteIndex g + 4 + 4) (set_byteIndex (byteIndex g + 4) g)))
    as HS.
  destruct (readHeaderVals _ _) as [vals g1]. simpl in HS. subst g1.
  destruct vals as [|a [|b [|c vals]]];
    unfold modify, get, ret; simpl_globals;
    try (destruct (negb (js_and _ _ =? 0))); repeat split.
Qed.

Lemma parseHeader_not_done g out : fst (parseHeader g) <> inl (Done out).
Proof.
  unfold parseHeader, bind, readBytes.
  destruct (negb (bufferEqString _ headerChunk)); [discriminate|].
  destruct (readHeaderVals _ _) as [vals g1].
  destruct vals as [|a [|b [|c vals]]];
    unfold modify, get, ret; simpl_globals;
    try (destruct (negb (js_and _ _ =? 0))); discriminate.
Qed.

(** A run that ends well went through the header, the tracks and the
    annotation, from a state that owes nothing to the state before. *)
Lemma script_done file bpm g out g' :
  script file bpm g = (Done out, g') ->
  let gh := afterHeader file bpm g in
  let gt := snd (readTracks (headerTracks file bpm g) 0 gh) in
  tempo gh = 500000%float /\ outputDict gh = ∅ /\ runningStatus gh = None /\
  overrideTempo gh = overrideOf bpm /\ bytes gh = file /\
  g' = set_outputDict
         (annotate (msPerTickOf (effectiveTempo gt) (division gt)) (outputDict gt))
         (set_tempo (effectiveTempo gt) gt) /\
  out = annotate (msPerTickOf (effectiveTempo gt) (division gt)) (outputDict gt).
Proof.
  intros H gh gt. subst gt gh. unfold afterHeader, headerTracks.
  unfold script in H. unfold bind at 1 2 3 in H.
  unfold modify at 1 in H.
  set (g0 := readArguments file bpm (initGlobals g)) in *.
  assert (H0 : tempo (snd g0) = 500000%float /\ outputDict (snd g0) = ∅ /\
               runningStatus (snd g0) = None /\
               overrideTempo (snd g0) = overrideOf bpm /\ bytes (snd g0) = file).
  { subst g0. unfold readArguments, bind, modify.
    destruct bpm; repeat split. }
  destruct g0 as [[] g0]. cbn [snd] in *.
  pose proof (parseHeader_frame g0) as HF. cbv zeta in HF.
  pose proof (parseHeader_not_done g0 out) as HD.
  destruct (parseHeader g0) as [[o|nt] gh]; cbn [fst snd] in *.
  - unfold ret in H. injection H as -> ->. congruence.
  - destruct HF as (_ & F2 & _ & F4 & F5 & F6 & F7).
    destruct H0 as (A & B & C & D & E).
    destruct (readTracks_spec (trackCount nt) 0 gh) as (gt & ET & _).
    unfold bind in H. rewrite ET in H. cbn [snd].
    unfold finish, bind, modify, get, ret in H. simpl_globals.
    injection H as <- <-. rewrite ET. cbn [snd].
    repeat split; congruence.
Qed.

(** * The claims *)

(** ** C1: the lifecycle of the running status *)

Lemma trackStates_head g :
  match head (trackStates g) with
  | Some s => runningStatus s = runningStatus g
  | None => True
  end.
Proof.
  unfold trackStates, readBytes.
  destruct (negb (bufferEqString _ trackChunk)); [exact I|].
  simpl_globals. destruct (bufferToNumber _) as [|len]; [exact I|].
  destruct (Z.to_nat len) as [|fuel]; simpl.
  - destruct (0 <? len); exact I.
  - destruct (0 <? len); [|exact I].
    destruct (trackIteration 0 [] _) as [[[t td] n] g']. reflexivity.
Qed.

Lemma readEvent_runningStatus td t hb g :
  let r := readEvent td t hb g in
  if num_ltb hb 0x80 && negb (statusSet (runningStatus g))
  then r = ((td, 0), g)
  else runningStatus (snd r) =
         (if num_ltb hb 0x80 then runningStatus g else Some hb).
Proof.
  unfold readEvent, bind, get, ret, modify, readBytes, push.
  destruct (num_ltb hb 128); cbn [andb].
  - destruct (statusSet (runningStatus g)) eqn:ES; cbn [negb]; [|reflexivity].
    destruct (runningStatus g) as [rs|]; [|discriminate].
    break_ifs; reflexivity.
  - break_ifs; reflexivity.
Qed.

(** C1, as the script has it.  The running status is empty when the
    script starts and still empty when the first track is read; [readTrack]
    does not reset it, so the loop of a track is entered with the status
    that the call found (the one the previous track left); [readEvent]
    leaves everything as it is when it drops a data byte for want of a
    status, and otherwise ends with the running status set to the effective
    status byte. *)
Theorem runningStatus_lifecycle (file : list byte) (bpm : option float)
    (g : Globals) (td : list Event) (t : Z) (hb : num) :
  runningStatus (initGlobals g) = None /\
  runningStatus (afterHeader file bpm g) = None /\
  match head (trackStates g) with
  | Some s => runningStatus s = runningStatus g
  | None => True
  end /\
  (if num_ltb hb 0x80 && negb (statusSet (runningStatus g))
   then readEvent td t hb g = ((td, 0), g)
   else runningStatus (snd (readEvent td t hb g)) =
          (if num_ltb hb 0x80 then runningStatus g else Some hb)).
Proof.
  split; [reflexivity|]. split.
  - unfold afterHeader.
    destruct (parseHeader_frame (snd (readArguments file bpm (initGlobals g))))
      as (_ & _ & _ & _ & _ & HR & _).
    rewrite HR. unfold readArguments, bind, modify. destruct bpm; reflexivity.
  - split; [apply trackStates_head | apply readEvent_runningStatus].
Qed.

(** C1 as stated fails: in [crossTrackFile] the second track consists of
    a delta time and the data bytes [3E 00]; it is entered with the status
    [0x90] that the first track established, and the bytes are decoded as a
    note-on.  Entered with an empty running status, the same track would
    yield no event. *)
Lemma running_status_crosses_tracks :
  runningStatus crossTrackEntry = Some (Int 0x90) /\
  trackBinding 1 crossTrackEntry =
    Some ("Track 1"%string, [mkEvent (noteOn (Int 62) (Int 0)) 0 None]) /\
  trackBinding 1 (set_runningStatus None crossTrackEntry) =
    Some ("Track 1"%string, []) /\
  match fst (script crossTrackFile None staleGlobals) with
  | Done out =>
      out !! "Track 1"%string =
        Some [mkEvent (noteOn (Int 62) (Int 0)) 0 (Some 0%float)]
  | _ => False
  end.
Proof. vm_compute. repeat split; reflexivity. Qed.

(** ** C3: reading past the end of the buffer *)

(** C3, as the script has it.  [readBytes] never fails: it returns the
    bytes from the cursor on, as many of the [n] requested as the buffer
    still holds (possibly none), and moves the cursor by [n] whatever was
    left. *)
Theorem readBytes_clamps (n : Z) (g : Globals) :
  0 <= n -> 0 <= byteIndex g ->
  readBytes n g =
    (firstn (Z.to_nat n) (remainingBytes g), set_byteIndex (byteIndex g + n) g) /\
  Z.of_nat (length (fst (readBytes n g))) =
    Z.min n (Z.max 0 (Z.of_nat (length (bytes g)) - byteIndex g)).
Proof.
  intros Hn Hi. rewrite readBytes_forward by assumption. split; [reflexivity|].
  cbn [fst]. unfold remainingBytes.
  rewrite length_firstn, length_skipn. lia.
Qed.

Lemma readBytes_clamps_witness :
  readBytes 4 (cursorAt [x4d; x54; x72] 1) =
    ([x54; x72], cursorAt [x4d; x54; x72] 5).
Proof.
  destruct (readBytes_clamps 4 (cursorAt [x4d; x54; x72] 1)) as [E _].
  - lia.
  - simpl. lia.
  - exact E.
Defined.

(** C3 as stated fails: four bytes are requested where two remain; the
    read returns the two bytes, nothing signals the end of the input, and
    the cursor ends beyond the length of the buffer. *)
Lemma readBytes_past_end :
  Z.of_nat (length [x4d; x54]) - 0 < 4 /\
  fst (readBytes 4 (cursorAt [x4d; x54] 0)) = [x4d; x54] /\
  Z.of_nat (length [x4d; x54]) < byteIndex (snd (readBytes 4 (cursorAt [x4d; x54] 0))).
Proof. vm_compute. repeat split; reflexivity. Qed.

(** ** C2: an instance of the round trip *)

Lemma readVariableLength_roundtrip_witness :
  readVariableLength (cursorAt (encodeVarLen 300 ++ [x00]) 0) =
    ((300, 2), cursorAt (encodeVarLen 300 ++ [x00]) 2).
Proof.
  destruct (readVariableLength_roundtrip 300 (cursorAt (encodeVarLen 300 ++ [x00]) 0))
    as [E _].
  - lia.
  - split; [simpl; lia | reflexivity].
  - exact E.
Defined.

(** ** C4: the drop path and termination *)

Lemma slice_one_length bs i : (length (slice bs i (i + 1)) <= 1)%nat.
Proof.
  unfold slice, clampIndex. rewrite length_firstn.
  destruct (i <? 0) eqn:E1, (i + 1 <? 0) eqn:E2; lia.
Qed.

Lemma one_byte_cases bs i :
  bufferToNumber (slice bs i (i + 1)) = NaN \/
  exists z, bufferToNumber (slice bs i (i + 1)) = Int z /\ 0 <= z < 256.
Proof.
  pose proof (slice_one_length bs i) as HL.
  destruct (slice bs i (i + 1)) as [|b [|b' l]]; [left; reflexivity| |simpl in HL; lia].
  right. exists (byteVal b). split; [reflexivity | apply byteVal_range].
Qed.

Lemma js_and_F0_data z :
  0 <= z < 128 -> (js_and (Int z) (Int 0xF0) =? 0xF0) = false.
Proof.
  intros H.
  assert (A : forallb (fun n => negb (js_and (Int (Z.of_nat n)) (Int 240) =? 240))
                      (seq 0 128) = true) by (vm_compute; reflexivity).
  rewrite forallb_forall in A. specialize (A (Z.to_nat z)).
  rewrite Z2Nat.id in A by lia.
  apply negb_true_iff, A, in_seq. lia.
Qed.

(** C4.  When the byte dispatched by a loop iteration has its high bit
    clear and no running status is set, [readEvent] reports zero bytes and
    appends nothing, the iteration leaves the array as it was and still
    counts the delta-time bytes and the byte itself (at least two bytes);
    and the loop of a track comes to its end by its guard on every input:
    started with [trackLength] units of fuel it never runs out, so
    [readTrack] always returns. *)
Theorem drop_path_progress (t : Z) (td : list Event) (g : Globals) :
  let v := fst (decodeVarLen (bytes g) (byteIndex g)) in
  let c := snd (decodeVarLen (bytes g) (byteIndex g)) in
  let hb := bufferToNumber (slice (bytes g) (byteIndex g + c) (byteIndex g + c + 1)) in
  let g2 := set_byteIndex (byteIndex g + c + 1) g in
  num_ltb hb 0x80 = true -> statusSet (runningStatus g) = false ->
  readEvent td (t + v) hb g2 = ((td, 0), g2) /\
  trackIteration t td g = ((t + v, td, c + 1), g2) /\
  1 <= c + 1 /\
  (forall len, exists td' g',
      trackLoop (Z.to_nat len) len t td g = (Some td', g')) /\
  (forall i, fst (readTrack i g) = Some tt).
Proof.
  intros v c hb g2 Hhb Hrs.
  pose proof (decodeVarLen_range (bytes g) (byteIndex g)) as [_ Hc]. fold c in Hc.
  assert (HE : readEvent td (t + v) hb g2 = ((td, 0), g2)).
  { unfold readEvent, bind, get. subst g2. simpl_globals.
    rewrite Hhb, Hrs. reflexivity. }
  split; [exact HE|]. split; [|split; [lia|split]].
  - unfold trackIteration, bind, readBytes.
    rewrite readVariableLength_pure. fold v c.
    destruct (decodeVarLen (bytes g) (byteIndex g)) as [v' c'] eqn:ED.
    cbn [fst snd] in v, c. subst v c. cbn [fst snd]. simpl_globals. fold hb.
    assert (H1 : num_eqb hb 255 = false).
    { destruct hb as [|z]; [reflexivity|]. simpl in *. lia. }
    assert (H2 : (js_and hb (Int 240) =? 240) = false).
    { destruct (one_byte_cases (bytes g) (byteIndex g + c')) as [E|(z & E & Hz)];
        fold hb in E; rewrite E in *; [reflexivity|].
      simpl in Hhb. apply js_and_F0_data. lia. }
    rewrite H1, H2.
    change (set_byteIndex (byteIndex g + c' + 1) (set_byteIndex (byteIndex g + c') g))
      with g2.
    rewrite HE. unfold ret. do 2 f_equal. lia.
  - intros len. destruct (trackLoop_spec (Z.to_nat len) len t td g (le_n _))
      as (td' & g' & E & _). eauto.
  - intros i. destruct (readTrack_spec i g) as (g' & E & _). rewrite E. reflexivity.
Qed.

Lemma drop_path_progress_witness :
  trackIteration 5 [] (cursorAt [x00; x3e; x00] 0) =
    ((5, [], 2), cursorAt [x00; x3e; x00] 2).
Proof.
  destruct (drop_path_progress 5 [] (cursorAt [x00; x3e; x00] 0)) as (_ & E & _).
  - reflexivity.
  - reflexivity.
  - exact E.
Defined.

(** ** C6: the pitch wheel *)

Lemma js_and_F0_pitch z :
  0xE0 <= z <= 0xEF -> js_and (Int z) (Int 0xF0) = 0xE0.
Proof.
  intros H.
  assert (A : forallb (fun n => js_and (Int (224 + Z.of_nat n)) (Int 240) =? 224)
                      (seq 0 16) = true) by (vm_compute; reflexivity).
  rewrite forallb_forall in A. specialize (A (Z.to_nat (z - 224))).
  rewrite Z2Nat.id in A by lia.
  replace (224 + (z - 224)) with z in A by lia.
  apply Z.eqb_eq, A, in_seq. lia.
Qed.

(** C6.  For an effective status [s] with high nibble [0xE], [readEvent]
    appends a pitch-wheel event whose value is [(second << 7) | first]:
    with the status byte itself dispatched, [first] and [second] are the
    next two bytes; under running status, [first] is the dispatched data
    byte and [second] the next byte.  For two data bytes the value is
    [second * 128 + first], a 14-bit number; the bytes [E0 00 40] give
    8192. *)
Theorem pitchwheel_value (td : list Event) (t : Z) (g : Globals) (s : Z) :
  0xE0 <= s <= 0xEF ->
  let i := byteIndex g in
  let b1 := bufferToNumber (slice (bytes g) i (i + 1)) in
  let b2 := bufferToNumber (slice (bytes g) (i + 1) (i + 1 + 1)) in
  readEvent td t (Int s) g =
    ((td ++ [mkEvent (pitchwheel (js_or (Int (js_shl b2 7)) b1)) t None], 2),
     set_runningStatus (Some (Int s)) (set_byteIndex (i + 1 + 1) g)) /\
  (forall d, 0 <= d < 0x80 -> runningStatus g = Some (Int s) ->
     readEvent td t (Int d) g =
       ((td ++ [mkEvent (pitchwheel (js_or (Int (js_shl b1 7)) (Int d))) t None], 1),
        set_runningStatus (Some (Int s)) (set_byteIndex (i + 1) g))) /\
  (forall first second, 0 <= first < 128 -> 0 <= second < 128 ->
     js_or (Int (js_shl (Int second) 7)) (Int first) = second * 128 + first /\
     0 <= second * 128 + first < 2 ^ 14) /\
  readEvent [] 0 (Int 0xE0) (cursorAt [x00; x40] 0) =
    (([mkEvent (pitchwheel 8192) 0 None], 2),
     set_runningStatus (Some (Int 0xE0)) (cursorAt [x00; x40] 2)).
Proof.
  intros Hs i b1 b2. pose proof (js_and_F0_pitch s Hs) as HM.
  split; [|split; [|split]].
  - unfold readEvent, bind, get, ret, modify, readBytes, push.
    replace (num_ltb (Int s) 128) with false by (simpl; lia).
    rewrite HM. reflexivity.
  - intros d Hd Hrs.
    unfold readEvent, bind, get, ret, modify, readBytes, push.
    replace (num_ltb (Int d) 128) with true by (simpl; lia).
    rewrite Hrs. replace (statusSet (Some (Int s))) with true by (simpl; lia).
    rewrite HM. reflexivity.
  - intros first second Hf Hsd. split; [apply shift_or_append; lia | lia].
  - reflexivity.
Qed.

Lemma pitchwheel_value_witness :
  readEvent [] 7 (Int 0xE3) (cursorAt [x7f; x7f] 0) =
    (([mkEvent (pitchwheel 16383) 7 None], 2),
     set_runningStatus (Some (Int 0xE3)) (cursorAt [x7f; x7f] 2)).
Proof.
  destruct (pitchwheel_value [] 7 (cursorAt [x7f; x7f] 0) 0xE3) as (E & _).
  - lia.
  - exact E.
Defined.

(** ** C7: meta events, running status and the end of the track *)

(** C7.  [readMetaEvent] ends with the running status cleared, and since
    the clearing comes first nothing in it depends on the status it found.
    On the bytes: a type byte followed by the length byte [00] appends a
    [trackEnd] event at the current tick time exactly when the type byte is
    [0x2F], and counts two bytes; a type byte followed by the encoding of a
    length above zero appends nothing, whatever the type.  On any input,
    truncated ones included, the declared length is never negative and the
    event is appended exactly when that length is zero and the type byte is
    [0x2F]. *)
Theorem metaEvent_trackEnd (td : list Event) (t : Z) (g : Globals)
    (tyb : byte) (v : Z) :
  (runningStatus (snd (readMetaEvent td t g)) = None /\
   readMetaEvent td t g = readMetaEvent td t (set_runningStatus None g)) /\
  (nextBytes g [tyb; x00] ->
   readMetaEvent td t g =
     ((if byteVal tyb =? 0x2F then td ++ [mkEvent trackEnd t None] else td, 2),
      set_runningStatus None (set_byteIndex (byteIndex g + 2) g))) /\
  (0 < v < 2 ^ 28 -> nextBytes g (tyb :: encodeVarLen v) ->
   fst (fst (readMetaEvent td t g)) = td) /\
  (let i := byteIndex g in
   let ty := bufferToNumber (slice (bytes g) i (i + 1)) in
   let len := fst (decodeVarLen (bytes g) (i + 1)) in
   0 <= len /\
   fst (fst (readMetaEvent td t g)) =
     (if (len =? 0) && num_eqb ty 0x2F
      then td ++ [mkEvent trackEnd t None] else td)) /\
  (readMetaEvent [] 7 (cursorAt [x2f; x00] 0) =
     (([mkEvent trackEnd 7 None], 2), cursorAt [x2f; x00] 2) /\
   fst (fst (readMetaEvent [] 7 (cursorAt [x2f; x01; x00] 0))) = [] /\
   fst (fst (readMetaEvent [] 7 (cursorAt [x03; x00] 0))) = []).
Proof.
  destruct (readMetaEvent_spec td t g) as (g' & E & _ & HR & _).
  split; [|split; [|split; [|split]]].
  - rewrite E. split; [exact HR|]. rewrite <- E. reflexivity.
  - intros HN. unfold readMetaEvent, bind, modify.
    destruct (readBytes_next (set_runningStatus None g) tyb [x00] HN) as [E1 HN1].
    rewrite E1.
    rewrite (readVariableLength_encoded 0 _ ltac:(lia) HN1).
    change (Z.of_nat (length (encodeVarLen 0))) with 1.
    cbn [Z.ltb Z.compare]. cbv iota.
    rewrite bufferToNumber_single. cbn [num_eqb]. simpl_globals.
    replace (byteIndex g + 1 + 1) with (byteIndex g + 2) by lia.
    destruct (byteVal tyb =? 47); reflexivity.
  - intros Hv HN. unfold readMetaEvent, bind, modify.
    destruct (readBytes_next (set_runningStatus None g) tyb (encodeVarLen v) HN)
      as [E1 HN1].
    rewrite E1.
    rewrite (readVariableLength_encoded v _ ltac:(lia) HN1).
    replace (0 <? v) with true by (symmetry; apply Z.ltb_lt; lia).
    unfold readBytes, ret. break_ifs; reflexivity.
  - intros i ty len.
    pose proof (decodeVarLen_range (bytes g) (byteIndex g + 1)) as [Hl _].
    fold i ty len in E, Hl. rewrite E. cbn [fst snd].
    split; [lia|].
    destruct (Z.ltb_spec 0 len), (Z.eqb_spec len 0); try lia; reflexivity.
  - repeat split; reflexivity.
Qed.

Lemma metaEvent_trackEnd_witness :
  readMetaEvent [] 3 (set_runningStatus (Some (Int 0x90)) (cursorAt [x2f; x00] 0)) =
    (([mkEvent trackEnd 3 None], 2), cursorAt [x2f; x00] 2) /\
  fst (fst (readMetaEvent [] 3 (cursorAt [x2f; x81; x00] 0))) = [].
Proof.
  split.
  - destruct (metaEvent_trackEnd [] 3
                (set_runningStatus (Some (Int 0x90)) (cursorAt [x2f; x00] 0)) x2f 1)
      as (_ & H & _).
    apply H. split; [simpl; lia | reflexivity].
  - destruct (metaEvent_trackEnd [] 3 (cursorAt [x2f; x81; x00] 0) x2f 128)
      as (_ & _ & H & _).
    apply H; [lia | split; [simpl; lia | reflexivity]].
Defined.

(** ** C8: the name of a track *)

Lemma bigEndian_zero p : forall acc,
  0 <= acc ->
  (fold_left (fun a b => a * 256 + byteVal b) p acc = 0 <->
   acc = 0 /\ Forall (fun b => byteVal b = 0) p) /\
  0 <= fold_left (fun a b => a * 256 + byteVal b) p acc.
Proof.
  induction p as [|b p IH]; intros acc Ha; simpl.
  - split; [|lia]. split; [intros ->; split; [reflexivity|constructor] | intros [-> _]; reflexivity].
  - pose proof (byteVal_range b) as Hb.
    destruct (IH (acc * 256 + byteVal b)) as [IH1 IH2]; [lia|].
    split; [|exact IH2]. rewrite IH1. split.
    + intros [H0 HF]. split; [lia|]. constructor; [lia|exact HF].
    + intros [-> HF]. inversion HF; subst. split; [lia|assumption].
Qed.

(** The guard [if (metaValue)] holds exactly when some byte of the payload
    is not zero. *)
Lemma truthy_payload p :
  truthy (bufferToNumber p) = true <-> Exists (fun b => byteVal b <> 0) p.
Proof.
  destruct p as [|b p].
  - simpl. split; [discriminate | intros H; inversion H].
  - change (bufferToNumber (b :: p)) with (Int (bigEndian (b :: p))).
    simpl truthy. rewrite negb_true_iff, Z.eqb_neq.
    destruct (bigEndian_zero (b :: p) 0) as [HZ _]; [lia|].
    unfold bigEndian. rewrite HZ. split.
    + intros H.
      destruct (@List.Forall_Exists_dec byte (fun x => byteVal x = 0)
                  (fun x => Z.eq_dec (byteVal x) 0) (b :: p)) as [F|E];
        [exfalso; apply H; split; [reflexivity | exact F] | exact E].
    + intros E [_ F]. apply Exists_exists in E as (x & Hin & Hx).
      rewrite Forall_forall in F. apply Hx, F, Hin.
Qed.

(** C8, as the script has it.  A name event (type [0x03], declared length
    above zero) stores its payload, read as ASCII with the high bits
    cleared, exactly when some byte of the payload is not zero; a payload
    of zero bytes leaves the name as it was.  When [readTrack] gets through
    its loop, the track's name is the last name so stored during the track,
    or ["Track " + index] when none was, and the array is stored under that
    name. *)
Theorem track_name_resolution (i : Z) (td : list Event) (t : Z) (g : Globals) :
  let k := byteIndex g in
  let ty := bufferToNumber (slice (bytes g) k (k + 1)) in
  let len := fst (decodeVarLen (bytes g) (k + 1)) in
  let c2 := snd (decodeVarLen (bytes g) (k + 1)) in
  let payload := slice (bytes g) (k + 1 + c2) (k + 1 + c2 + len) in
  tempTrackName (snd (readMetaEvent td t g)) =
    (if (0 <? len) && num_eqb ty 0x03 && truthy (bufferToNumber payload)
     then asciiString payload else tempTrackName g) /\
  (truthy (bufferToNumber payload) = true <->
   Exists (fun b => byteVal b <> 0) payload) /\
  (forall td', fst (readTrackData i g) = Parsed td' ->
     let name := List.last (omap nameWrite (trackStates g))
                           ("Track " ++ numberToString i)%string in
     tempTrackName (snd (readTrackData i g)) = name /\
     outputDict (snd (readTrack i g)) = assignProperty name td' (outputDict g)).
Proof.
  intros k ty len c2 payload.
  split; [|split; [apply truthy_payload|]].
  - destruct (readMetaEvent_spec td t g) as (g' & E & _ & _ & _ & _ & HN).
    rewrite E. exact HN.
  - intros td' Hr name.
    destruct (readTrackData_spec i g) as (r & g1 & E & _ & HS & _ & _ & _ & HN).
    rewrite E in Hr |- *. cbn [fst snd] in *. subst r.
    specialize (HN td' eq_refl). fold name in HN. split; [exact HN|].
    unfold readTrack, bind. rewrite E. unfold modify, ret. simpl_globals.
    rewrite HN. destruct HS as (_ & _ & _ & -> & _). reflexivity.
Qed.

Lemma track_name_resolution_witness :
  tempTrackName (snd (readTrackData 4 namedTrackCursor)) = "ab"%string /\
  outputDict (snd (readTrack 4 namedTrackCursor)) =
    assignProperty "ab" [mkEvent (programChange (Int 5)) 0 None] ∅.
Proof.
  destruct (track_name_resolution 4 [] 0 namedTrackCursor) as (_ & _ & H).
  apply (H [mkEvent (programChange (Int 5)) 0 None]).
  reflexivity.
Defined.

(** C8 as stated fails: the track of [zeroNameFile] holds a name event
    with a payload of one byte, [00]; the payload is not stored and the
    track is filed under the default name. *)
Lemma zero_name_payload_not_stored :
  map metaAt (tracksStates 1 0 (afterHeader zeroNameFile None staleGlobals)) =
    [Some (Int 3, [x00]); None] /\
  match fst (script zeroNameFile None staleGlobals) with
  | Done out =>
      out !! "Track 0"%string = Some [mkEvent trackEnd 0 (Some 0%float)] /\
      out !! asciiString [x00] = None
  | _ => False
  end.
Proof. vm_compute. repeat split; reflexivity. Qed.

(** ** C5: the effective tempo and the millisecond times *)

Lemma annotate_lookup ms d name evs e :
  annotate ms d !! name = Some evs -> In e evs ->
  timeMS e = Some (Z2float (time e) * ms)%float.
Proof.
  unfold annotate. rewrite lookup_fmap.
  destruct (d !! name) as [l|]; [|discriminate].
  intros [= <-] HIn. apply in_map_iff in HIn as (e0 & <- & _). reflexivity.
Qed.

(** C5, as the script has it.  When a run ends well, the effective tempo
    is the override [60000000 / BPM] if that quotient, computed in doubles,
    is above zero, and otherwise the value of the last tempo event met in
    the tracks in parse order, or 500000 if there was none; every event of
    the output carries [timeMS = time * ((tempo / division) / 1000)] for
    that tempo. *)
Theorem script_tempo_and_times (file : list byte) (bpm : option float)
    (g : Globals) (out : gmap string (list Event)) (g' : Globals) :
  script file bpm g = (Done out, g') ->
  let states := tracksStates (headerTracks file bpm g) 0 (afterHeader file bpm g) in
  let eff := if (0 <? overrideOf bpm)%float then overrideOf bpm
             else List.last (omap tempoWrite states) 500000%float in
  tempo g' = eff /\
  forall name evs e,
    out !! name = Some evs -> In e evs ->
    timeMS e = Some (Z2float (time e) * (eff / toFloat (division g') / 1000))%float.
Proof.
  intros H states eff.
  destruct (script_done file bpm g out g' H) as (HT & _ & _ & HO & _ & Hg & Hout).
  destruct (readTracks_spec (headerTracks file bpm g) 0 (afterHeader file bpm g))
    as (gt & E & (_ & HO' & _ & _) & _ & HT' & _).
  rewrite E in Hg, Hout. cbn [snd] in Hg, Hout.
  assert (HE : effectiveTempo gt = eff).
  { unfold effectiveTempo. rewrite HO', HO, HT', HT. reflexivity. }
  rewrite HE in Hg, Hout. subst g' out. simpl_globals.
  split; [reflexivity|].
  intros name evs e Hl HIn. eapply annotate_lookup; eassumption.
Qed.

Lemma script_tempo_and_times_witness :
  tempo (snd (script tempoFile (Some 120%float) staleGlobals)) = 500000%float.
Proof.
  refine (proj1 (script_tempo_and_times tempoFile (Some 120%float) staleGlobals
                   (match fst (script tempoFile (Some 120%float) staleGlobals) with
                    | Done out => out
                    | _ => ∅
                    end)
                   (snd (script tempoFile (Some 120%float) staleGlobals)) _)).
  vm_compute. reflexivity.
Defined.

(** C5 as stated fails: with the argument [0] the tempo comes out as
    [60000000 / 0 = +infinity], which is above zero, so the override is
    taken although the BPM is not positive and the file carries a tempo
    event of 400000; the note-on at tick 96 gets an infinite time instead
    of 80 milliseconds. *)
Lemma zero_bpm_overrides_tempo :
  (0 <? 0)%float = false /\
  omap tempoWrite (tracksStates 1 0 (afterHeader tempoFile (Some 0%float) staleGlobals)) =
    [400000%float] /\
  tempo (snd (script tempoFile (Some 0%float) staleGlobals)) = infinity /\
  match fst (script tempoFile (Some 0%float) staleGlobals) with
  | Done out =>
      out !! "Track 0"%string =
        Some [mkEvent (noteOn (Int 60) (Int 64)) 96 (Some infinity);
              mkEvent trackEnd 96 (Some infinity)]
  | _ => False
  end /\
  match fst (script tempoFile None staleGlobals) with
  | Done out =>
      out !! "Track 0"%string =
        Some [mkEvent (noteOn (Int 60) (Int 64)) 96 (Some 80%float);
              mkEvent trackEnd 96 (Some 80%float)]
  | _ => False
  end.
Proof. vm_compute. repeat split; reflexivity. Qed.

(** ** C9: what a second decode owes to the first *)

Lemma commutes_ret {A : Type} f (a : A) : commutes f (ret a).
Proof. intros g. reflexivity. Qed.

Lemma commutes_bind {A B : Type} f (m : M A) (k : A -> M B) :
  commutes f m -> (forall a, commutes f (k a)) -> commutes f (bind m k).
Proof.
  intros Hm Hk g. unfold bind. rewrite Hm.
  destruct (m g) as [a g1]. cbn [fst snd]. apply Hk.
Qed.

Lemma commutes_get {A : Type} f (k : Globals -> M A) :
  (forall g, commutes f (k g)) -> (forall g, k (f g) = k g) ->
  commutes f (bind get k).
Proof. intros Hc He g. unfold bind, get. rewrite He. apply Hc. Qed.

Lemma commutes_modify f h :
  (forall g, h (f g) = f (h g)) -> commutes f (modify h).
Proof. intros H g. unfold modify. rewrite H. reflexivity. Qed.

Lemma commutes_readBytes f n :
  (forall g, bytes (f g) = bytes g) ->
  (forall g, byteIndex (f g) = byteIndex g) ->
  (forall k g, set_byteIndex k (f g) = f (set_byteIndex k g)) ->
  commutes f (readBytes n).
Proof.
  intros Hb Hi Hs g. unfold readBytes. rewrite Hb, Hi, Hs. reflexivity.
Qed.

Create HintDb commute discriminated.

#[local] Hint Resolve commutes_ret commutes_bind : commute.
#[local] Hint Extern 1 (commutes _ (modify _)) =>
  apply commutes_modify; reflexivity : commute.
#[local] Hint Extern 1 (commutes _ (readBytes _)) =>
  apply commutes_readBytes; reflexivity : commute.
#[local] Hint Extern 2 (commutes _ (if ?c then _ else _)) => destruct c : commute.
#[local] Hint Extern 2 (commutes _ (match ?x with _ => _ end)) => destruct x : commute.

(** The output mapping is written by [readTrack] alone, after the loop of
    the track: nothing that parses reads it. *)
Lemma vlLoop_dict d fuel : forall acc byte cnt,
  commutes (set_outputDict d) (vlLoop fuel acc byte cnt).
Proof.
  induction fuel as [|fuel IH]; intros acc byte cnt; cbn [vlLoop];
    auto with commute.
Qed.

#[local] Hint Resolve vlLoop_dict : commute.

Lemma readVariableLength_dict d : commutes (set_outputDict d) readVariableLength.
Proof. unfold readVariableLength. auto 10 with commute. Qed.

#[local] Hint Resolve readVariableLength_dict : commute.

Lemma readEvent_dict d td t hb : commutes (set_outputDict d) (readEvent td t hb).
Proof.
  unfold readEvent. apply commutes_get; [intros g | reflexivity].
  auto 30 with commute.
Qed.

Lemma readMetaEvent_dict d td t : commutes (set_outputDict d) (readMetaEvent td t).
Proof. unfold readMetaEvent. auto 30 with commute. Qed.

Lemma readSysex_dict d td t hb : commutes (set_outputDict d) (readSysex td t hb).
Proof. unfold readSysex. auto 30 with commute. Qed.

#[local] Hint Resolve readEvent_dict readMetaEvent_dict readSysex_dict : commute.

Lemma trackIteration_dict d t td : commutes (set_outputDict d) (trackIteration t td).
Proof. unfold trackIteration. auto 30 with commute. Qed.

#[local] Hint Resolve trackIteration_dict : commute.

Lemma trackLoop_dict d fuel : forall len t td,
  commutes (set_outputDict d) (trackLoop fuel len t td).
Proof.
  induction fuel as [|fuel IH]; intros len t td; cbn [trackLoop];
    auto 10 with commute.
Qed.

#[local] Hint Resolve trackLoop_dict : commute.

Lemma readTrackData_dict d i : commutes (set_outputDict d) (readTrackData i).
Proof.
  assert (H : forall nm,
             commutes (set_outputDict d)
               (modify (fun g => if String.eqb (tempTrackName g) ""
                                 then set_tempTrackName nm g else g))).
  { intros nm. apply commutes_modify. intros g. simpl_globals.
    destruct (String.eqb (tempTrackName g) ""); reflexivity. }
  unfold readTrackData, trackBody. auto 30 with commute.
Qed.

(** The name a track finds is assigned before it is read, unless the
    track has no tag and [readTrack] returns at once. *)
Lemma readTrackData_name i x g :
  readTrackData i (set_tempTrackName x g) =
    (fst (readTrackData i g),
     match fst (readTrackData i g) with
     | NoTrackHeader => set_tempTrackName x (snd (readTrackData i g))
     | _ => snd (readTrackData i g)
     end).
Proof.
  unfold readTrackData, bind, readBytes. simpl_globals.
  destruct (negb (bufferEqString _ trackChunk)); [reflexivity|].
  unfold trackBody, bind, modify.
  assert (E : forall a b,
             set_tempTrackName "" (set_byteIndex a (set_byteIndex b (set_tempTrackName x g))) =
             set_tempTrackName "" (set_byteIndex a (set_byteIndex b g)))
    by reflexivity.
  rewrite E.
  destruct (bufferToNumber _) as [|len]; [reflexivity|].
  destruct (trackLoop _ _ _ _ _) as [[td|] g2]; reflexivity.
Qed.

Lemma readTrack_reset i x d g :
  exists y,
    readTrack i (set_tempTrackName x (set_outputDict d g)) =
      (fst (readTrack i g),
       set_tempTrackName y
         (set_outputDict (storeBinding d (trackBinding i g)) (snd (readTrack i g)))).
Proof.
  unfold readTrack, trackBinding, bind.
  change (set_tempTrackName x (set_outputDict d g))
    with (set_outputDict d (set_tempTrackName x g)).
  rewrite readTrackData_dict, readTrackData_name.
  destruct (readTrackData i g) as [r g1]. cbn [fst snd].
  destruct r as [|td|]; unfold ret, modify; cbn [fst snd storeBinding].
  - exists x. reflexivity.
  - exists (tempTrackName g1). destruct g1. reflexivity.
  - exists (tempTrackName g1). destruct g1. reflexivity.
Qed.

Lemma readTracks_reset n : forall i x d g,
  exists y,
    readTracks n i (set_tempTrackName x (set_outputDict d g)) =
      (fst (readTracks n i g),
       set_tempTrackName y
         (set_outputDict (fold_left storeBinding (trackBindings n i g) d)
            (snd (readTracks n i g)))).
Proof.
  induction n as [|n IH]; intros i x d g.
  - exists x. reflexivity.
  - cbn [readTracks trackBindings fold_left]. unfold bind.
    destruct (readTrack_reset i x d g) as [y E]. rewrite E.
    destruct (readTrack_spec i g) as (g1 & E1 & _). rewrite E1.
    cbn [fst snd]. apply IH.
Qed.

(** The header chunk reads neither the name, nor the division it found,
    nor the output mapping. *)
Lemma readHeaderVals_reset y dv D n :
  commutes (fun g => set_tempTrackName y (set_division dv (set_outputDict D g)))
    (readHeaderVals n).
Proof. induction n as [|n IH]; cbn [readHeaderVals]; auto with commute. Qed.

Lemma parseHeader_reset y dv D g :
  let g' := set_tempTrackName y (set_division dv (set_outputDict D g)) in
  fst (parseHeader g') = fst (parseHeader g) /\
  (forall nt, fst (parseHeader g) = inr nt ->
              snd (parseHeader g') =
                set_tempTrackName y (set_outputDict D (snd (parseHeader g)))).
Proof.
  cbv zeta. unfold parseHeader, bind, readBytes. simpl_globals.
  destruct (negb (bufferEqString _ headerChunk)); [split; [reflexivity|discriminate]|].
  assert (E : forall a b,
             set_byteIndex a
               (set_byteIndex b (set_tempTrackName y (set_division dv (set_outputDict D g)))) =
             set_tempTrackName y
               (set_division dv (set_outputDict D (set_byteIndex a (set_byteIndex b g)))))
    by reflexivity.
  rewrite !E.
  match goal with
  | |- context [readHeaderVals ?n
                  (set_tempTrackName y (set_division dv (set_outputDict D ?st)))] =>
      pose proof (readHeaderVals_reset y dv D n st) as HR
  end.
  cbv beta in HR. rewrite !HR. clear HR E.
  destruct (readHeaderVals _ _) as [vals g1]. cbn [fst snd].
  destruct vals as [|a [|b [|c vals]]];
    unfold modify, get, ret; simpl_globals;
    try (split; [reflexivity|discriminate]).
  destruct (negb (js_and _ _ =? 0)); (split; [reflexivity|]);
    [discriminate | intros; reflexivity].
Qed.

(** The outcome of a decode from globals whose name, division and output
    mapping have been replaced. *)
Lemma decode_reset y dv D g :
  fst (decode (set_tempTrackName y (set_division dv (set_outputDict D g)))) =
    match fst (parseHeader g) with
    | inl o => o
    | inr nt =>
        let gh := snd (parseHeader g) in
        let gt := snd (readTracks (trackCount nt) 0 gh) in
        Done (annotate (msPerTickOf (effectiveTempo gt) (division gt))
                (fold_left storeBinding (trackBindings (trackCount nt) 0 gh) D))
    end.
Proof.
  destruct (parseHeader_reset y dv D g) as [E1 E2]. cbv zeta in E1, E2.
  unfold decode, bind.
  destruct (parseHeader (set_tempTrackName y (set_division dv (set_outputDict D g))))
    as [h' gh'].
  destruct (parseHeader g) as [h gh]. cbn [fst snd] in *. subst h'.
  destruct h as [o|nt]; [reflexivity|].
  rewrite (E2 nt eq_refl).
  destruct (readTracks_reset (trackCount nt) 0 y D gh) as [y' E]. rewrite E.
  destruct (readTracks_spec (trackCount nt) 0 gh) as (gt & Et & _). rewrite Et.
  reflexivity.
Qed.

Lemma decode_outcome g :
  fst (decode g) =
    match fst (parseHeader g) with
    | inl o => o
    | inr nt =>
        let gh := snd (parseHeader g) in
        let gt := snd (readTracks (trackCount nt) 0 gh) in
        Done (annotate (msPerTickOf (effectiveTempo gt) (division gt))
                (fold_left storeBinding (trackBindings (trackCount nt) 0 gh)
                   (outputDict g)))
    end.
Proof.
  rewrite <- (decode_reset (tempTrackName g) (division g) (outputDict g) g).
  destruct g. reflexivity.
Qed.

(** What a decode leaves of the arguments and in the output mapping. *)
Lemma decode_final g :
  let s := snd (decode g) in
  overrideTempoBPM s = overrideTempoBPM g /\ overrideTempo s = overrideTempo g /\
  bytes s = bytes g /\
  outputDict s = match fst (decode g) with Done out => out | _ => outputDict g end.
Proof.
  unfold decode, bind.
  pose proof (parseHeader_frame g) as HF. cbv zeta in HF.
  pose proof (parseHeader_not_done g) as HD.
  destruct (parseHeader g) as [[o|nt] gh]; cbn [fst snd] in *.
  - destruct HF as (_ & _ & F3 & F4 & F5 & _ & F7). unfold ret. cbn [fst snd].
    repeat split; try assumption.
    destruct o; try assumption. exfalso. eapply HD. reflexivity.
  - destruct HF as (_ & _ & F3 & F4 & F5 & _ & F7).
    destruct (readTracks_spec (trackCount nt) 0 gh) as (gt & Et & HA & _).
    rewrite Et. destruct HA as (A1 & A2 & _ & A4).
    unfold finish, bind, modify, get, ret. simpl_globals. cbn [fst snd].
    simpl_globals. repeat split; congruence.
Qed.

(** A key of the mapping is either left alone by all the stores of a
    list of bindings, or ends with a value that the list alone decides. *)
Lemma fold_storeBinding_cases k bs :
  (forall d, fold_left storeBinding bs d !! k = d !! k) \/
  (exists td, forall d, fold_left storeBinding bs d !! k = Some td).
Proof.
  induction bs as [|b bs IH]; [left; reflexivity|].
  destruct IH as [IH|[td IH]]; [|right; exists td; intros d; apply IH].
  destruct b as [[nm td]|]; [|left; intros d; apply IH].
  cbn [fold_left storeBinding]. unfold assignProperty.
  destruct (String.eqb nm "__proto__"); [left; intros d; apply IH|].
  destruct (decide (nm = k)) as [->|Hne].
  - right. exists td. intros d. rewrite IH. apply lookup_insert_eq.
  - left. intros d. rewrite IH. apply lookup_insert_ne. exact Hne.
Qed.

(** Storing the same bindings over their own annotated result changes
    nothing. *)
Lemma annotate_restore ms bs :
  annotate ms (fold_left storeBinding bs (annotate ms (fold_left storeBinding bs ∅))) =
    annotate ms (fold_left storeBinding bs ∅).
Proof.
  apply map_eq. intros k. unfold annotate. rewrite !lookup_fmap.
  destruct (fold_storeBinding_cases k bs) as [H|[td H]].
  - rewrite !H, lookup_fmap, H, lookup_empty. reflexivity.
  - rewrite !H. reflexivity.
Qed.

(** The script is its initialisers and arguments followed by a decode. *)
Lemma script_decode file bpm g :
  script file bpm g = decode (snd (readArguments file bpm (initGlobals g))).
Proof. unfold script, readArguments, bind, modify. destruct bpm; reflexivity. Qed.



(** ** C10: two tracks with one name *)

(** C10 holds for every name but one.  Two tracks named ["__proto__"]:
    neither array is in the output, which is empty. *)
Lemma proto_name_drops_tracks :
  trackBindings 2 0 (afterHeader (sameNameFile x09 x11 "__proto__") None staleGlobals) =
    [Some ("__proto__"%string, [mkEvent (noteOn (Int 60) (Int 64)) 0 None]);
     Some ("__proto__"%string, [mkEvent (noteOff (Int 60) (Int 0)) 0 None])] /\
  fst (script (sameNameFile x09 x11 "__proto__") None staleGlobals) = Done ∅.
Proof. vm_compute. repeat split; reflexivity. Qed.

(** * Further properties of the script *)

(** ** The cursor and the buffer *)

(** Two reads in a row return what one read of the combined length
    returns, and end in the same state. *)
Theorem readBytes_compose (a b : Z) (g : Globals) :
  0 <= a -> 0 <= b -> 0 <= byteIndex g ->
  readBytes (a + b) g =
    (fst (readBytes a g) ++ fst (readBytes b (snd (readBytes a g))),
     snd (readBytes b (snd (readBytes a g)))).
Proof.
  intros Ha Hb Hi.
  rewrite (readBytes_forward (a + b)) by lia.
  rewrite (readBytes_forward a g) by lia. cbn [fst snd].
  rewrite (readBytes_forward b) by (simpl; lia). cbn [fst snd].
  rewrite remainingBytes_advance by lia.
  rewrite Z2Nat.inj_add by lia. rewrite <- take_take_drop.
  f_equal. unfold set_byteIndex; simpl. f_equal. lia.
Qed.

Lemma readBytes_compose_witness :
  readBytes (1 + 2) (cursorAt [x01; x02; x03; x04] 1) =
    ([x02] ++ [x03; x04], cursorAt [x01; x02; x03; x04] 4).
Proof.
  apply (readBytes_compose 1 2 (cursorAt [x01; x02; x03; x04] 1)); simpl; lia.
Defined.

Lemma bigEndian_snoc p b : bigEndian (p ++ [b]) = bigEndian p * 256 + byteVal b.
Proof. unfold bigEndian. rewrite fold_left_app. reflexivity. Qed.

Lemma bigEndian_bound p : 0 <= bigEndian p < 256 ^ Z.of_nat (length p).
Proof.
  induction p as [|b p IH] using rev_ind; [unfold bigEndian; simpl; lia|].
  rewrite bigEndian_snoc, length_app, Nat2Z.inj_add.
  change (Z.of_nat (length [b])) with 1.
  rewrite Z.pow_add_r by lia. change (256 ^ 1) with 256.
  pose proof (byteVal_range b). nia.
Qed.



(** ** Variable-length quantities on arbitrary input *)

(** Whatever the buffer holds, truncated or not, [readVariableLength]
    returns a value below [2^28] and a count between one and four, moves
    the cursor by that count and changes nothing else. *)
Theorem readVariableLength_total (g : Globals) :
  exists v c,
    readVariableLength g = ((v, c), set_byteIndex (byteIndex g + c) g) /\
    0 <= v < 2 ^ 28 /\ 1 <= c <= 4.
Proof. apply readVariableLength_spec. Qed.

Lemma remainingBytes_end g :
  Z.of_nat (length (bytes g)) <= byteIndex g -> remainingBytes g = [].
Proof. intros H. unfold remainingBytes. apply skipn_all2. lia. Qed.

Lemma readBytes_end n g :
  0 <= n -> Z.of_nat (length (bytes g)) <= byteIndex g ->
  readBytes n g = ([], set_byteIndex (byteIndex g + n) g).
Proof.
  intros Hn H. rewrite readBytes_forward by lia.
  rewrite remainingBytes_end by assumption. rewrite firstn_nil. reflexivity.
Qed.

(** At the end of the input the decoder reads nothing, yet reports the
    value zero in one byte. *)
Theorem readVariableLength_at_end (g : Globals) :
  Z.of_nat (length (bytes g)) <= byteIndex g ->
  readVariableLength g = ((0, 1), set_byteIndex (byteIndex g + 1) g).
Proof.
  intros H. unfold readVariableLength, bind.
  rewrite readBytes_end by lia. reflexivity.
Qed.

Lemma readVariableLength_at_end_witness :
  readVariableLength (cursorAt [x81] 1) = ((0, 1), cursorAt [x81] 2).
Proof. apply (readVariableLength_at_end (cursorAt [x81] 1)). simpl. lia. Defined.

Lemma vlLoop_cont_byte fuel acc cnt g b b' l :
  128 <= byteVal b -> cnt < 3 -> 0 <= acc < 2 ^ 24 -> nextBytes g (b' :: l) ->
  vlLoop (S fuel) acc (Int (byteVal b)) cnt g =
    vlLoop fuel (acc * 128 + byteVal b mod 128) (Int (byteVal b')) (cnt + 1)
           (set_byteIndex (byteIndex g + 1) g).
Proof.
  intros Hb Hc Ha Hn. pose proof (byteVal_range b) as Hr.
  replace (byteVal b) with (128 + (byteVal b - 128)) at 1 by lia.
  rewrite (vlLoop_cont fuel acc (byteVal b - 128) cnt g b' l) by (assumption || lia).
  replace (byteVal b mod 128) with (byteVal b - 128); [reflexivity|].
  apply Z.mod_unique with (q := 1); lia.
Qed.

(** The fourth byte ends the quantity whatever its top bit: after three
    continuation bytes the decoder takes the low seven bits of the fourth
    byte and reads no fifth. *)
Theorem readVariableLength_four_byte_cap (g : Globals) (b0 b1 b2 b3 : byte) :
  nextBytes g [b0; b1; b2; b3] ->
  128 <= byteVal b0 -> 128 <= byteVal b1 -> 128 <= byteVal b2 ->
  readVariableLength g =
    ((((byteVal b0 mod 128 * 128 + byteVal b1 mod 128) * 128
       + byteVal b2 mod 128) * 128 + byteVal b3 mod 128, 4),
     set_byteIndex (byteIndex g + 4) g).
Proof.
  intros HN H0 H1 H2.
  pose proof (Z.mod_pos_bound (byteVal b0) 128).
  pose proof (Z.mod_pos_bound (byteVal b1) 128).
  pose proof (Z.mod_pos_bound (byteVal b2) 128).
  pose proof (Z.mod_pos_bound (byteVal b3) 128).
  pose proof (byteVal_range b3).
  destruct (readBytes_next _ _ _ HN) as [E0 HN1].
  destruct (readBytes_next _ _ _ HN1) as [_ HN2].
  destruct (readBytes_next _ _ _ HN2) as [_ HN3].
  unfold readVariableLength, bind. rewrite E0, bufferToNumber_single.
  rewrite (vlLoop_cont_byte 2 0 0 _ b0 b1 [b2; b3]) by (assumption || lia).
  rewrite (vlLoop_cont_byte 1 _ _ _ b1 b2 [b3]) by (assumption || lia).
  rewrite (vlLoop_cont_byte 0 _ _ _ b2 b3 []) by (assumption || lia).
  cbn [vlLoop]. unfold ret.
  rewrite js_and_7F_small by lia.
  rewrite shift_or_append by lia.
  simpl_globals. unfold set_byteIndex; simpl.
  replace (byteIndex g + 1 + 1 + 1 + 1) with (byteIndex g + 4) by lia.
  reflexivity.
Qed.

Lemma readVariableLength_four_byte_cap_witness :
  readVariableLength (cursorAt [xff; xff; xff; xff; x01] 0) =
    ((268435455, 4), cursorAt [xff; xff; xff; xff; x01] 4).
Proof.
  apply (readVariableLength_four_byte_cap
           (cursorAt [xff; xff; xff; xff; x01] 0) xff xff xff xff).
  - split; [simpl; lia | reflexivity].
  - vm_compute. discriminate.
  - vm_compute. discriminate.
  - vm_compute. discriminate.
Defined.

(** ** One pass through the track loop *)

(** Byte accounting is exact: the count that an iteration subtracts from
    the remaining length is the distance the cursor moved, and it is at
    least two.  The iteration appends at most one event, stamped with the
    new tick time, which is not below the old one, and it leaves the
    arguments, the buffer and the dictionary alone. *)
Theorem trackIteration_accounting (t : Z) (td : list Event) (g : Globals) :
  exists t' td' n g',
    trackIteration t td g = ((t', td', n), g') /\
    byteIndex g' = byteIndex g + n /\ 2 <= n /\ t <= t' /\
    (td' = td \/ exists b, td' = td ++ [mkEvent b t' None]) /\
    sameEnv g g'.
Proof.
  destruct (trackIteration_spec t td g)
    as (t' & td' & n & g' & E & HS & HI & Hn & Ht & _ & _ & Htd).
  exists t', td', n, g'. repeat split; try assumption; apply HS.
Qed.

(** At the end of the input an iteration counts three bytes, appends
    nothing and leaves [NaN] as running status, so a truncated track runs
    down its declared length without inventing events. *)
Theorem trackIteration_at_end (t : Z) (td : list Event) (g : Globals) :
  Z.of_nat (length (bytes g)) <= byteIndex g ->
  trackIteration t td g =
    ((t, td, 3), set_runningStatus (Some NaN) (set_byteIndex (byteIndex g + 3) g)).
Proof.
  intros H. unfold trackIteration, bind.
  rewrite readVariableLength_at_end by assumption. cbn [fst snd].
  rewrite readBytes_end by (simpl_globals; lia). cbn [bufferToNumber num_eqb].
  change (js_and NaN (Int 240) =? 240) with false. cbv iota.
  unfold readEvent, bind, get. cbn [num_ltb].
  rewrite readBytes_end by (simpl_globals; lia).
  unfold ret, modify. cbn [bufferToNumber]. simpl_globals.
  change (js_and NaN (Int 240)) with 0. cbn [Z.eqb].
  unfold set_runningStatus, set_byteIndex; simpl.
  rewrite Z.add_0_r.
  replace (byteIndex g + 1 + 1 + 1) with (byteIndex g + 3) by lia.
  reflexivity.
Qed.

Lemma trackIteration_at_end_witness :
  trackIteration 9 [] (cursorAt [x00] 1) =
    ((9, [], 3), set_runningStatus (Some NaN) (cursorAt [x00] 4)).
Proof. apply (trackIteration_at_end 9 [] (cursorAt [x00] 1)). simpl. lia. Defined.

(** ** The events of a track *)

Lemma StronglySorted_snoc {A : Type} (R : A -> A -> Prop) l x :
  StronglySorted R l -> Forall (fun a => R a x) l -> StronglySorted R (l ++ [x]).
Proof.
  induction 1 as [|a l HS IH HF]; intros HA; simpl.
  - constructor; constructor.
  - inversion HA; subst. constructor; [apply IH; assumption|].
    apply Forall_app. split; [assumption|]. constructor; [assumption|constructor].
Qed.

Lemma trackLoop_sorted fuel : forall len t td g td' g',
  trackLoop fuel len t td g = (Some td', g') ->
  0 <= t -> timesSorted td ->
  Forall (fun e => 0 <= time e <= t /\ timeMS e = None) td ->
  timesSorted td' /\ Forall (fun e => 0 <= time e /\ timeMS e = None) td'.
Proof.
  induction fuel as [|fuel IH]; intros len t td g td' g' E Ht HS HF.
  - simpl in E. destruct (0 <? len); [discriminate|].
    injection E as <- <-. split; [assumption|].
    eapply List.Forall_impl; [|exact HF]. simpl. intros e [[H _] H']. tauto.
  - simpl in E. destruct (0 <? len).
    + destruct (trackIteration_spec t td g)
        as (t1 & td1 & n & g1 & E1 & _ & _ & _ & Ht1 & _ & _ & Htd).
      unfold bind in E. rewrite E1 in E.
      apply (IH _ _ _ _ _ _ E); [lia| |].
      * destruct Htd as [->|[b ->]]; [assumption|].
        apply StronglySorted_snoc; [assumption|].
        eapply List.Forall_impl; [|exact HF]. simpl. intros e [[_ H] _]. lia.
      * assert (HF1 : Forall (fun e => 0 <= time e <= t1 /\ timeMS e = None) td).
        { eapply List.Forall_impl; [|exact HF]. simpl. intros e [[H1 H2] H3].
          split; [lia|assumption]. }
        destruct Htd as [->|[b ->]]; [assumption|].
        apply Forall_app. split; [assumption|].
        constructor; [simpl; split; [lia|reflexivity]|constructor].
    + injection E as <- <-. split; [assumption|].
      eapply List.Forall_impl; [|exact HF]. simpl. intros e [[H _] H']. tauto.
Qed.

(** The array of a track is in tick order: times start at zero or above
    and never go back, and no event has a millisecond time before the
    annotation. *)
Theorem track_events_sorted (i : Z) (g : Globals) (td : list Event) :
  fst (readTrackData i g) = Parsed td ->
  timesSorted td /\ Forall (fun e => 0 <= time e /\ timeMS e = None) td.
Proof.
  unfold readTrackData, bind, readBytes.
  destruct (negb (bufferEqString _ trackChunk)); [discriminate|].
  unfold trackBody, bind, modify. simpl_globals.
  destruct (bufferToNumber _) as [|len].
  - unfold ret. cbn [fst]. intros [= <-]. split; constructor.
  - destruct (trackLoop (Z.to_nat len) len 0 [] _) as [[td'|] g'] eqn:E;
      unfold ret; cbn [fst]; [|discriminate].
    intros [= <-].
    apply (trackLoop_sorted _ _ _ _ _ _ _ E); [lia|constructor|constructor].
Qed.

Lemma track_events_sorted_witness :
  fst (readTrackData 4 threeEventCursor) =
    Parsed [mkEvent (programChange (Int 5)) 0 None;
            mkEvent (noteOn (Int 60) (Int 64)) 5 None;
            mkEvent (noteOff (Int 60) (Int 0)) 5 None] /\
  timesSorted [mkEvent (programChange (Int 5)) 0 None;
               mkEvent (noteOn (Int 60) (Int 64)) 5 None;
               mkEvent (noteOff (Int 60) (Int 0)) 5 None] /\
  Forall (fun e => 0 <= time e /\ timeMS e = None)
         [mkEvent (programChange (Int 5)) 0 None;
          mkEvent (noteOn (Int 60) (Int 64)) 5 None;
          mkEvent (noteOff (Int 60) (Int 0)) 5 None].
Proof.
  split; [reflexivity|].
  apply (track_events_sorted 4 threeEventCursor). reflexivity.
Defined.

(** ** Chunk tags and chunk lengths *)

Lemma byteVal_inj b b' : byteVal b = byteVal b' -> b = b'.
Proof.
  unfold byteVal. intros H. apply N2Z.inj in H.
  pose proof (Byte.of_to_N b) as E. rewrite H, Byte.of_to_N in E. congruence.
Qed.

Lemma map_byteVal_inj l : forall l', map byteVal l = map byteVal l' -> l = l'.
Proof.
  induction l as [|b l IH]; intros [|b' l'] H; try discriminate; [reflexivity|].
  simpl in H. injection H as Hb Hl. f_equal; [apply byteVal_inj, Hb | apply IH, Hl].
Qed.

Lemma bufferEqString_spec buf s :
  bufferEqString buf s = true <-> buf = list_byte_of_string s.
Proof.
  unfold bufferEqString. rewrite bool_decide_eq_true.
  split; [apply map_byteVal_inj | intros ->; reflexivity].
Qed.

Lemma readBytes_prefix g l l' :
  nextBytes g (l ++ l') ->
  readBytes (Z.of_nat (length l)) g =
    (l, set_byteIndex (byteIndex g + Z.of_nat (length l)) g) /\
  nextBytes (set_byteIndex (byteIndex g + Z.of_nat (length l)) g) l'.
Proof.
  intros [Hi Hf]. rewrite readBytes_forward by lia.
  unfold nextBytes. rewrite remainingBytes_advance by lia.
  rewrite Nat2Z.id. simpl_globals.
  pose proof (firstn_skipn (length (l ++ l')) (remainingBytes g)) as HR.
  rewrite Hf in HR. rewrite <- HR, <- app_assoc.
  rewrite take_app_length, drop_app_length, take_app_length.
  repeat split. lia.
Qed.

(** Without the chunk tag ["MTrk"] at the cursor, [readTrack] steps over
    four bytes and does nothing else: no name, no entry in the dictionary,
    and the next track is looked for four bytes further on. *)
Theorem readTrack_without_tag (i : Z) (g : Globals) :
  slice (bytes g) (byteIndex g) (byteIndex g + 4) <> list_byte_of_string "MTrk" ->
  readTrack i g = (Some tt, set_byteIndex (byteIndex g + 4) g).
Proof.
  intros H. unfold readTrack, readTrackData, bind, readBytes.
  destruct (bufferEqString _ trackChunk) eqn:E.
  - apply bufferEqString_spec in E. contradiction.
  - reflexivity.
Qed.

Lemma readTrack_without_tag_witness :
  readTrack 0 (cursorAt [x4d; x54; x68; x64; x00] 0) =
    (Some tt, cursorAt [x4d; x54; x68; x64; x00] 4).
Proof.
  apply (readTrack_without_tag 0 (cursorAt [x4d; x54; x68; x64; x00] 0)).
  vm_compute. discriminate.
Defined.

(** With the tag, the cursor ends at or beyond the declared end of the
    chunk: the loop stops when the counted bytes reach the declared length
    and does not step back when the last event runs over it. *)
Theorem readTrack_reaches_chunk_end (i : Z) (g : Globals) (len : Z) :
  slice (bytes g) (byteIndex g) (byteIndex g + 4) = list_byte_of_string "MTrk" ->
  bufferToNumber (slice (bytes g) (byteIndex g + 4) (byteIndex g + 4 + 4)) = Int len ->
  exists td,
    fst (readTrackData i g) = Parsed td /\
    byteIndex g + 8 + len <= byteIndex (snd (readTrack i g)).
Proof.
  intros Htag Hlen.
  unfold readTrack, readTrackData, bind, readBytes.
  rewrite Htag.
  replace (bufferEqString (list_byte_of_string "MTrk") trackChunk) with true
    by reflexivity.
  cbn [negb]. simpl_globals. rewrite Hlen.
  unfold trackBody, bind, modify. simpl_globals.
  destruct (trackLoop_spec (Z.to_nat len) len 0 []
              (set_tempTrackName ""
                 (set_byteIndex (byteIndex g + 4 + 4)
                    (set_byteIndex (byteIndex g + 4) g))) (le_n _))
    as (td & g' & E & _ & HI & _).
  rewrite E. unfold ret. exists td. cbn [fst snd]. split; [reflexivity|].
  simpl_globals. destruct (String.eqb _ ""); simpl_globals; lia.
Qed.

Lemma readTrack_reaches_chunk_end_witness :
  exists td,
    fst (readTrackData 4 namedTrackCursor) = Parsed td /\
    byteIndex namedTrackCursor + 8 + 9 <= byteIndex (snd (readTrack 4 namedTrackCursor)).
Proof.
  apply (readTrack_reaches_chunk_end 4 namedTrackCursor 9); reflexivity.
Defined.

(** ** The header chunk *)

Lemma land_8000_word w :
  0 <= w < 65536 -> Z.land w 32768 = if w <? 32768 then 0 else 32768.
Proof.
  intros H. apply Z.bits_inj'. intros n Hn.
  rewrite Z.land_spec. change 32768 with (2 ^ 15) at 1.
  rewrite Z.pow2_bits_eqb by lia.
  destruct (Z.eqb_spec 15 n) as [<-|Hne].
  - rewrite andb_true_r. destruct (Z.ltb_spec w 32768).
    + rewrite Z.bits_0. apply Z.testbit_false; [lia|].
      rewrite Z.div_small by lia. reflexivity.
    + change (Z.testbit 32768 15) with true. apply Z.testbit_true; [lia|].
      replace (w / 2 ^ 15) with 1; [reflexivity|].
      apply Z.div_unique with (r := w - 32768); lia.
  - rewrite andb_false_r. destruct (w <? 32768); [rewrite Z.bits_0; reflexivity|].
    change 32768 with (2 ^ 15). rewrite Z.pow2_bits_false by lia. reflexivity.
Qed.

Lemma js_and_8000_word w :
  0 <= w < 65536 ->
  js_and (Int w) (Int 0x8000) = if w <? 32768 then 0 else 32768.
Proof.
  intros H. unfold js_and. simpl numToInt32.
  rewrite (toInt32_small w) by lia.
  rewrite (toInt32_small 32768) by lia.
  rewrite land_8000_word by lia.
  destruct (w <? 32768); reflexivity.
Qed.

(** The usual header: six bytes of data after the tag and the length.
    The second field is the number of tracks and the third the division,
    both big-endian; a division with its top bit set (SMPTE) ends the run,
    and in either case the cursor is left behind the fourteen bytes. *)
Theorem parseHeader_standard (g : Globals) (f1 f2 n1 n2 d1 d2 : byte) :
  nextBytes g (list_byte_of_string "MThd" ++ [x00; x00; x00; x06]
                 ++ [f1; f2] ++ [n1; n2] ++ [d1; d2]) ->
  parseHeader g =
    (if byteVal d1 <? 128 then inr (Int (byteVal n1 * 256 + byteVal n2))
     else inl Exit1,
     set_division (Int (byteVal d1 * 256 + byteVal d2))
                  (set_byteIndex (byteIndex g + 14) g)).
Proof.
  intros HN.
  change (list_byte_of_string "MThd") with [x4d; x54; x68; x64] in HN.
  destruct (readBytes_prefix _ _ _ HN) as [E1 HN1]. norm_lengths E1.
  destruct (readBytes_prefix _ _ _ HN1) as [E2 HN2]. norm_lengths E2.
  destruct (readBytes_prefix _ _ _ HN2) as [E3 HN3]. norm_lengths E3.
  destruct (readBytes_prefix _ _ _ HN3) as [E4 HN4]. norm_lengths E4.
  destruct (readBytes_prefix _ [d1; d2] [] HN4) as [E5 _]. norm_lengths E5.
  unfold parseHeader, bind. rewrite E1.
  replace (bufferEqString [x4d; x54; x68; x64] headerChunk) with true by reflexivity.
  cbn [negb]. rewrite E2.
  replace (headerValCount (bufferToNumber [x00; x00; x00; x06])) with 3%nat
    by reflexivity.
  cbn [readHeaderVals]. unfold bind. rewrite E3, E4, E5.
  unfold ret, modify, get. simpl_globals.
  pose proof (byteVal_range d1). pose proof (byteVal_range d2).
  change (bufferToNumber [d1; d2]) with (Int ((0 * 256 + byteVal d1) * 256 + byteVal d2)).
  change (bufferToNumber [n1; n2]) with (Int ((0 * 256 + byteVal n1) * 256 + byteVal n2)).
  rewrite js_and_8000_word by lia.
  replace ((0 * 256 + byteVal d1) * 256 + byteVal d2)
    with (byteVal d1 * 256 + byteVal d2) by lia.
  replace ((0 * 256 + byteVal n1) * 256 + byteVal n2)
    with (byteVal n1 * 256 + byteVal n2) by lia.
  replace (byteIndex g + 4 + 4 + 2 + 2 + 2) with (byteIndex g + 14) by lia.
  destruct (Z.ltb_spec (byteVal d1) 128);
    destruct (Z.ltb_spec (byteVal d1 * 256 + byteVal d2) 32768); try lia;
    reflexivity.
Qed.

Lemma parseHeader_standard_witness :
  parseHeader (cursorAt (headerBytes x02) 0) =
    (inr (Int 2), set_division (Int 480) (cursorAt (headerBytes x02) 14)).
Proof.
  apply (parseHeader_standard (cursorAt (headerBytes x02) 0) x00 x01 x00 x02 x01 xe0).
  split; [simpl; lia | reflexivity].
Defined.

Lemma readHeaderVals_length n : forall g, length (fst (readHeaderVals n g)) = n.
Proof.
  induction n as [|n IH]; intros g; [reflexivity|].
  cbn [readHeaderVals]. unfold bind, readBytes.
  specialize (IH (set_byteIndex (byteIndex g + 2) g)).
  destruct (readHeaderVals n _) as [rest g1]. simpl in *. lia.
Qed.

(** A header chunk that declares fewer than five bytes of data gives
    fewer than three fields, and converting the missing field throws. *)
Theorem parseHeader_short (g : Globals) (l0 l1 l2 l3 : byte) :
  nextBytes g (list_byte_of_string "MThd" ++ [l0; l1; l2; l3]) ->
  bigEndian [l0; l1; l2; l3] <= 4 ->
  fst (parseHeader g) = inl TypeError.
Proof.
  intros HN Hl.
  change (list_byte_of_string "MThd") with [x4d; x54; x68; x64] in HN.
  destruct (readBytes_prefix _ _ _ HN) as [E1 HN1]. norm_lengths E1.
  destruct (readBytes_prefix _ [l0; l1; l2; l3] [] HN1) as [E2 _]. norm_lengths E2.
  unfold parseHeader, bind. rewrite E1.
  replace (bufferEqString [x4d; x54; x68; x64] headerChunk) with true by reflexivity.
  cbn [negb]. rewrite E2.
  change (bufferToNumber [l0; l1; l2; l3]) with (Int (bigEndian [l0; l1; l2; l3])).
  pose proof (bigEndian_bound [l0; l1; l2; l3]) as [Hb _].
  set (hl := bigEndian [l0; l1; l2; l3]) in *.
  assert (Hn : (headerValCount (Int hl) <= 2)%nat).
  { unfold headerValCount.
    assert ((hl + 1) / 2 < 3) by (apply Z.div_lt_upper_bound; lia). lia. }
  pose proof (readHeaderVals_length (headerValCount (Int hl))
                (set_byteIndex (byteIndex g + 4 + 4) g)) as HL.
  destruct (readHeaderVals _ _) as [vals g1].
  cbn [fst] in HL.
  destruct vals as [|a [|b [|c vals]]]; try reflexivity.
  cbn [length] in HL. lia.
Qed.

Lemma parseHeader_short_witness :
  fst (parseHeader (cursorAt [x4d; x54; x68; x64; x00; x00; x00; x03; x00; x01; x00] 0))
    = inl TypeError.
Proof.
  apply (parseHeader_short
           (cursorAt [x4d; x54; x68; x64; x00; x00; x00; x03; x00; x01; x00] 0)
           x00 x00 x00 x03).
  - split; [simpl; lia | reflexivity].
  - vm_compute. discriminate.
Defined.

(** A file that does not start with ["MThd"], the empty file included,
    ends the run with exit code 1 before anything is parsed. *)
Theorem script_bad_magic (file : list byte) (bpm : option float) (g : Globals) :
  firstn 4 file <> list_byte_of_string "MThd" ->
  fst (script file bpm g) = Exit1.
Proof.
  intros H. unfold script, readArguments, bind, modify, parseHeader, ret.
  assert (E : bufferEqString
                (slice file (byteIndex (initGlobals g))
                       (byteIndex (initGlobals g) + 4)) headerChunk = false).
  { destruct (bufferEqString _ headerChunk) eqn:E; [|reflexivity].
    apply bufferEqString_spec in E.
    change (byteIndex (initGlobals g)) with 0 in E.
    rewrite slice_forward in E by lia. contradiction. }
  destruct bpm; unfold bind, readBytes; simpl_globals; rewrite E; reflexivity.
Qed.

Lemma script_bad_magic_witness : fst (script [] None staleGlobals) = Exit1.
Proof. apply (script_bad_magic [] None staleGlobals). discriminate. Defined.

(** ** The output mapping *)

Lemma assignProperty_other nm td d name :
  nm <> name -> assignProperty nm td d !! name = d !! name.
Proof.
  intros H. unfold assignProperty.
  destruct (String.eqb nm "__proto__"); [reflexivity|].
  apply lookup_insert_ne. exact H.
Qed.

Lemma assignProperty_same name td d :
  name <> "__proto__"%string -> assignProperty name td d !! name = Some td.
Proof.
  intros H. unfold assignProperty.
  destruct (String.eqb_spec name "__proto__"); [contradiction|].
  apply lookup_insert_eq.
Qed.

Lemma assignProperty_proto nm td d :
  assignProperty nm td d !! "__proto__"%string = d !! "__proto__"%string.
Proof.
  unfold assignProperty.
  destruct (String.eqb_spec nm "__proto__") as [->|H]; [reflexivity|].
  apply lookup_insert_ne. exact H.
Qed.

Lemma fold_storeBinding_absent name bs : forall d,
  (forall k td, bs !! k <> Some (Some (name, td))) ->
  fold_left storeBinding bs d !! name = d !! name.
Proof.
  induction bs as [|b bs IH]; intros d H; [reflexivity|].
  simpl. rewrite IH.
  - destruct b as [[nm td]|]; [|reflexivity]. simpl.
    apply assignProperty_other. intros ->. apply (H 0%nat td). reflexivity.
  - intros k td. apply (H (S k) td).
Qed.

Lemma fold_storeBinding_last name td bs : forall j d,
  name <> "__proto__"%string ->
  bs !! j = Some (Some (name, td)) ->
  (forall k td', (j < k)%nat -> bs !! k <> Some (Some (name, td'))) ->
  fold_left storeBinding bs d !! name = Some td.
Proof.
  induction bs as [|b bs IH]; intros j d Hn Hj Hlater; [discriminate|].
  destruct j as [|j].
  - simpl in Hj. injection Hj as ->. simpl.
    rewrite fold_storeBinding_absent.
    + apply assignProperty_same. exact Hn.
    + intros k td'. apply (Hlater (S k) td'). lia.
  - simpl. apply (IH j); [exact Hn | exact Hj |].
    intros k td' Hk. apply (Hlater (S k) td'). lia.
Qed.

Lemma fold_storeBinding_proto bs : forall d,
  d !! "__proto__"%string = None ->
  fold_left storeBinding bs d !! "__proto__"%string = None.
Proof.
  induction bs as [|b bs IH]; intros d H; [exact H|].
  simpl. apply IH. destruct b as [[nm td]|]; [|exact H].
  simpl. rewrite assignProperty_proto. exact H.
Qed.

Lemma script_output file bpm g out g' :
  script file bpm g = (Done out, g') ->
  out = annotate (msPerTickOf (tempo g') (division g'))
          (fold_left storeBinding
             (trackBindings (headerTracks file bpm g) 0 (afterHeader file bpm g)) ∅).
Proof.
  intros H.
  destruct (script_done file bpm g out g' H) as (_ & HO & _ & _ & _ & Hg & Hout).
  destruct (readTracks_spec (headerTracks file bpm g) 0 (afterHeader file bpm g))
    as (gt & E & _ & _ & _ & HD).
  rewrite E in Hg, Hout. cbn [snd] in Hg, Hout.
  rewrite HO in HD. rewrite HD in Hout. subst g'. simpl_globals. exact Hout.
Qed.

(** When several tracks resolve to one name, other than ["__proto__"],
    the output holds under that name the events of the last of them,
    annotated, and nothing of the earlier ones. *)
Theorem later_track_wins (file : list byte) (bpm : option float) (g : Globals)
    (out : gmap string (list Event)) (g' : Globals)
    (j : nat) (name : string) (td : list Event) :
  script file bpm g = (Done out, g') ->
  name <> "__proto__"%string ->
  trackBindings (headerTracks file bpm g) 0 (afterHeader file bpm g) !! j =
    Some (Some (name, td)) ->
  (forall k td', (j < k)%nat ->
     trackBindings (headerTracks file bpm g) 0 (afterHeader file bpm g) !! k <>
       Some (Some (name, td'))) ->
  out !! name =
    Some (map (annotateEvent (msPerTickOf (tempo g') (division g'))) td).
Proof.
  intros H Hn Hj Hlater. rewrite (script_output _ _ _ _ _ H).
  unfold annotate. rewrite lookup_fmap.
  rewrite (fold_storeBinding_last name td _ j ∅ Hn Hj Hlater). reflexivity.
Qed.

Lemma later_track_wins_witness :
  match fst (script (sameNameFile x03 x0b "abc") None staleGlobals) with
  | Done out => out
  | _ => ∅
  end !! "abc"%string =
    Some (map (annotateEvent
                 (msPerTickOf
                    (tempo (snd (script (sameNameFile x03 x0b "abc") None staleGlobals)))
                    (division (snd (script (sameNameFile x03 x0b "abc") None staleGlobals)))))
              [mkEvent (noteOff (Int 60) (Int 0)) 0 None]).
Proof.
  apply (later_track_wins (sameNameFile x03 x0b "abc") None staleGlobals _ _ 1%nat).
  - vm_compute. reflexivity.
  - discriminate.
  - vm_compute. reflexivity.
  - intros k td' Hk. destruct k as [|[|k]]; [lia | lia |].
    vm_compute. discriminate.
Defined.

(** No output ever has the key ["__proto__"]: a track of that name is
    lost, whatever it holds. *)
Theorem proto_never_key (file : list byte) (bpm : option float) (g : Globals)
    (out : gmap string (list Event)) (g' : Globals) :
  script file bpm g = (Done out, g') ->
  out !! "__proto__"%string = None.
Proof.
  intros H. rewrite (script_output _ _ _ _ _ H).
  unfold annotate. rewrite lookup_fmap.
  rewrite fold_storeBinding_proto; reflexivity.
Qed.

Lemma proto_never_key_witness :
  match fst (script (sameNameFile x09 x11 "__proto__") None staleGlobals) with
  | Done out => out
  | _ => ∅
  end !! "__proto__"%string = None.
Proof.
  apply (proto_never_key (sameNameFile x09 x11 "__proto__") None staleGlobals _
           (snd (script (sameNameFile x09 x11 "__proto__") None staleGlobals))).
  vm_compute. reflexivity.
Defined.

(** ** Channel-voice events and running status *)

Lemma js_and_F0_byte z :
  0 <= z < 256 -> js_and (Int z) (Int 0xF0) = z / 16 * 16.
Proof.
  intros H.
  assert (A : forallb (fun n => js_and (Int (Z.of_nat n)) (Int 240) =?
                                Z.of_nat n / 16 * 16)
                      (seq 0 256) = true) by (vm_compute; reflexivity).
  rewrite forallb_forall in A. specialize (A (Z.to_nat z)).
  rewrite Z2Nat.id in A by lia.
  apply Z.eqb_eq, A, in_seq. lia.
Qed.

(** A status byte from [0x80] to [0xEF] always yields exactly one event,
    stamped with the current tick time; it takes one data byte for program
    change and channel aftertouch ([0xC0]-[0xDF]) and two for the others,
    and it becomes the running status. *)
Theorem readEvent_arity (td : list Event) (t : Z) (g : Globals) (s : Z) :
  0x80 <= s <= 0xEF ->
  let n := if (0xC0 <=? s) && (s <=? 0xDF) then 1 else 2 in
  exists b,
    readEvent td t (Int s) g =
      ((td ++ [mkEvent b t None], n),
       set_runningStatus (Some (Int s)) (set_byteIndex (byteIndex g + n) g)).
Proof.
  intros Hs n. subst n.
  unfold readEvent, bind, get, ret, modify, readBytes, push.
  replace (num_ltb (Int s) 128) with false by (simpl; lia).
  rewrite js_and_F0_byte by lia. simpl_globals.
  assert (Hq : s / 16 = 8 \/ s / 16 = 9 \/ s / 16 = 10 \/ s / 16 = 11 \/
               s / 16 = 12 \/ s / 16 = 13 \/ s / 16 = 14).
  { assert (8 <= s / 16) by (apply Z.div_le_lower_bound; lia).
    assert (s / 16 < 15) by (apply Z.div_lt_upper_bound; lia). lia. }
  assert (Hm : (0xC0 <=? s) && (s <=? 0xDF) =
               ((s / 16 =? 12) || (s / 16 =? 13))).
  { pose proof (Z.div_mod s 16). pose proof (Z.mod_pos_bound s 16). lia. }
  rewrite Hm.
  destruct Hq as [E|[E|[E|[E|[E|[E|E]]]]]]; rewrite E; cbn [Z.eqb Z.mul Pos.mul Pos.eqb orb Pos.add];
    eexists; unfold set_runningStatus, set_byteIndex; simpl;
    rewrite <- ?Z.add_assoc; reflexivity.
Qed.

Lemma readEvent_arity_witness :
  exists b,
    readEvent [] 3 (Int 0xC1) (cursorAt [x05; x06] 0) =
      (([] ++ [mkEvent b 3 None], 1),
       set_runningStatus (Some (Int 0xC1)) (cursorAt [x05; x06] 1)).
Proof. apply (readEvent_arity [] 3 (cursorAt [x05; x06] 0) 0xC1). lia. Defined.

(** Running status decodes as a repeated status byte would: a data byte
    dispatched under the running status [s] gives the events and the final
    state that dispatching [s] itself gives when the cursor stands on that
    data byte, with one byte less counted. *)
Theorem running_status_as_repeated_status (td : list Event) (t : Z)
    (g : Globals) (s : Z) (b : byte) :
  0x80 <= s <= 0xEF -> byteVal b < 0x80 ->
  runningStatus g = Some (Int s) ->
  slice (bytes g) (byteIndex g - 1) (byteIndex g) = [b] ->
  readEvent td t (Int s) (set_byteIndex (byteIndex g - 1) g) =
    ((fst (fst (readEvent td t (Int (byteVal b)) g)),
      snd (fst (readEvent td t (Int (byteVal b)) g)) + 1),
     snd (readEvent td t (Int (byteVal b)) g)).
Proof.
  intros Hs Hb Hrs Hsl. pose proof (byteVal_range b) as Hr.
  unfold readEvent, bind, get, ret, modify, readBytes, push. simpl_globals.
  rewrite Hrs.
  replace (num_ltb (Int s) 128) with false by (simpl; lia).
  replace (num_ltb (Int (byteVal b)) 128) with true by (simpl; lia).
  replace (statusSet (Some (Int s))) with true by (simpl; lia).
  break_ifs; cbv beta iota zeta; simpl_globals;
    replace (byteIndex g - 1 + 1) with (byteIndex g) by lia;
    rewrite ?Hsl, ?bufferToNumber_single; destruct g; reflexivity.
Qed.

Lemma running_status_as_repeated_status_witness :
  readEvent [] 0 (Int 0x90)
            (set_runningStatus (Some (Int 0x90)) (cursorAt [x3e; x00] 0)) =
    (([mkEvent (noteOn (Int 62) (Int 0)) 0 None], 2),
     set_runningStatus (Some (Int 0x90)) (cursorAt [x3e; x00] 2)).
Proof.
  apply (running_status_as_repeated_status [] 0
           (set_runningStatus (Some (Int 0x90)) (cursorAt [x3e; x00] 1)) 0x90 x3e).
  - lia.
  - vm_compute. reflexivity.
  - reflexivity.
  - reflexivity.
Defined.

(** ** System messages *)

(** A loop iteration whose dispatched byte lies between [0xF0] and [0xFE]
    skips a length-prefixed payload and appends no event; the running
    status is cleared below [0xF8] and kept from [0xF8] on. *)
Theorem system_message_skipped (t : Z) (td : list Event) (g : Globals) (z : Z) :
  let v := fst (decodeVarLen (bytes g) (byteIndex g)) in
  let c := snd (decodeVarLen (bytes g) (byteIndex g)) in
  let len := fst (decodeVarLen (bytes g) (byteIndex g + c + 1)) in
  let c' := snd (decodeVarLen (bytes g) (byteIndex g + c + 1)) in
  bufferToNumber (slice (bytes g) (byteIndex g + c) (byteIndex g + c + 1)) = Int z ->
  0xF0 <= z <= 0xFE ->
  trackIteration t td g =
    ((t + v, td, c + 1 + (len + c')),
     set_runningStatus (if z <? 0xF8 then None else runningStatus g)
       (set_byteIndex (byteIndex g + c + 1 + c' + len) g)).
Proof.
  intros v c len c' Hhb Hz.
  unfold trackIteration, bind, readBytes.
  rewrite readVariableLength_pure. fold v c. cbn [fst snd]. simpl_globals.
  rewrite Hhb.
  replace (num_eqb (Int z) 255) with false by (simpl; lia).
  rewrite js_and_F0_byte by lia.
  replace (z / 16 * 16 =? 240) with true.
  2:{ symmetry. apply Z.eqb_eq.
      assert (z / 16 = 15); [|lia].
      assert (15 <= z / 16) by (apply Z.div_le_lower_bound; lia).
      assert (z / 16 < 16) by (apply Z.div_lt_upper_bound; lia). lia. }
  unfold readSysex, bind, modify, readBytes, ret. cbn [num_ltb].
  subst len c'.
  destruct (z <? 248); cbv beta iota; rewrite readVariableLength_pure;
    simpl_globals;
    destruct (decodeVarLen (bytes g) (byteIndex g + c + 1)) as [len c'];
    cbn [fst snd]; cbv beta iota zeta; simpl_globals;
    rewrite (Z.add_0_l c); destruct g; reflexivity.
Qed.

Lemma system_message_skipped_witness :
  trackIteration 0 [] (set_runningStatus (Some (Int 0x90))
                         (cursorAt [x00; xf0; x02; x01; xf7] 0)) =
    ((0, [], 5), cursorAt [x00; xf0; x02; x01; xf7] 5).
Proof.
  apply (system_message_skipped 0 []
           (set_runningStatus (Some (Int 0x90))
              (cursorAt [x00; xf0; x02; x01; xf7] 0)) 0xF0).
  - reflexivity.
  - lia.
Defined.
